(** * imgdiff: the perceptual image comparator

    A shallow embedding of [perceptual.go] (package [imgdiff]), of the
    [Differ] contract of [diff.go], and of the threshold of the command
    ([cmd/imgdiff/main.go]: the [Set] method of [thresholdVar] and the test
    of [run]).

    - Go's [float64] is Rocq's primitive binary64 float, so every [+], [*],
      [/], [<] below is the IEEE 754 operation the Go program executes,
      NaN and signed zeros included.
    - [math.Abs], [math.Max] and [math.Sqrt] are fixed by IEEE 754 and by the
      special cases Go documents; they are defined here.  [math.Pow],
      [math.Exp], [math.Log10] and [math.Tan] are taken as a parameter
      ([MathLib]).
    - A run-time panic (index out of range, negative [make] length) is the
      [Panic] outcome of the [Go] monad; slices are lists with checked
      indexing.
    - Go's [int] is modelled by [Z]: slice lengths are bounded by memory,
      far below 2^62, so none of the index computations can wrap. *)

From Stdlib Require Import ZArith List Bool Lia Floats Uint63.
Import ListNotations.

Set Warnings "-inexact-float".

Declare Scope go_scope.
Delimit Scope go_scope with go.

(** ** Outcomes of Go code that may panic *)

Inductive Go (A : Type) : Type :=
| Val (a : A)
| Panic.

Arguments Val {A} a.
Arguments Panic {A}.

Definition bind {A B : Type} (c : Go A) (k : A -> Go B) : Go B :=
  match c with
  | Val a => k a
  | Panic => Panic
  end.

Notation "x <- c ;; k" := (bind c (fun x => k))
  (at level 61, c at next level, right associativity) : go_scope.
Notation "' pat <- c ;; k" := (bind c (fun x => match x with pat => k end))
  (at level 61, pat pattern, c at next level, right associativity) : go_scope.

Open Scope go_scope.
Open Scope Z_scope.

Fixpoint foldM {S A : Type} (f : S -> A -> Go S) (l : list A) (s : S) : Go S :=
  match l with
  | [] => Val s
  | a :: l' => s' <- f s a ;; foldM f l' s'
  end.

Fixpoint mapM {A B : Type} (f : A -> Go B) (l : list A) : Go (list B) :=
  match l with
  | [] => Val []
  | a :: l' => b <- f a ;; bs <- mapM f l' ;; Val (b :: bs)
  end.

(** ** Slices *)

Definition len {A : Type} (s : list A) : Z := Z.of_nat (length s).

(** [s[i]]: panics when [i] is out of range. *)
Definition index {A : Type} (s : list A) (i : Z) : Go A :=
  if i <? 0 then Panic
  else match nth_error s (Z.to_nat i) with
       | Some a => Val a
       | None => Panic
       end.

(** [make([]T, n)] panics on a negative length. *)
Definition makeslice (n : Z) : Go unit :=
  if n <? 0 then Panic else Val tt.

(** The values of [for i := 0; i < n; i++]. *)
Definition upto (n : Z) : list Z := map Z.of_nat (seq 0 (Z.to_nat n)).

(** [s[i] = v] on an index in range (out of range it leaves [s] alone; the
    callers below guard the index). *)
Fixpoint update {A : Type} (s : list A) (i : nat) (v : A) : list A :=
  match s, i with
  | [], _ => []
  | _ :: t, O => v :: t
  | a :: t, S i' => a :: update t i' v
  end.

(** ** float64 and package math *)

Definition float64 (n : Z) : float :=
  if n <? 0 then (- of_uint63 (Uint63.of_Z (- n)))%float else of_uint63 (Uint63.of_Z n).

(** [math.Abs] clears the sign bit. *)
Definition Abs (x : float) : float := PrimFloat.abs x.

(** [math.Sqrt] is the correctly rounded IEEE square root. *)
Definition Sqrt (x : float) : float := PrimFloat.sqrt x.

(** [math.Max], with the special cases of its documentation:
    [Max(x, +Inf) = Max(+Inf, x) = +Inf], [Max(x, NaN) = Max(NaN, x) = NaN],
    [Max(+0, ±0) = Max(±0, +0) = +0], [Max(-0, -0) = -0]. *)
Definition Max (x y : float) : float :=
  if (x =? infinity)%float || (y =? infinity)%float then infinity
  else if is_nan x || is_nan y then nan
  else if (x =? 0)%float && (x =? y)%float then
         (if get_sign x then y else x)
  else if (y <? x)%float then x else y.

(** The functions of package [math] that IEEE 754 does not fix. *)
Record MathLib : Type := {
  Pow : float -> float -> float;
  Exp : float -> float;
  Log10 : float -> float;
  Tan : float -> float
}.

Definition Pi : float := 3.14159265358979323846264338327950288419716939937510582097494459%float.

(** ** Package image *)

Record Point : Type := { X : Z; Y : Z }.
Record Rectangle : Type := { Min : Point; Max_ : Point }.

Definition Dx (r : Rectangle) : Z := X (Max_ r) - X (Min r).
Definition Dy (r : Rectangle) : Z := Y (Max_ r) - Y (Min r).

(** [image.Rect]: swaps the coordinates where needed, so that the result is
    well-formed. *)
Definition Rect (x0 y0 x1 y1 : Z) : Rectangle :=
  let '(x0, x1) := if x1 <? x0 then (x1, x0) else (x0, x1) in
  let '(y0, y1) := if y1 <? y0 then (y1, y0) else (y0, y1) in
  {| Min := {| X := x0; Y := y0 |}; Max_ := {| X := x1; Y := y1 |} |}.

(** What [color.Color.RGBA()] returns: four channels in [0, 0xffff]. *)
Record Color : Type := { cR : Z; cG : Z; cB : Z; cA : Z }.

(** [image.Image]: bounds and a pixel accessor. *)
Record Image : Type := { Bounds : Rectangle; At : Z -> Z -> Color }.

(** [color.NRGBA] *)
Record NRGBA : Type := { nR : Z; nG : Z; nB : Z; nA : Z }.

(** [image.NRGBA]: the pixel buffer, kept as rows of pixels. *)
Record NRGBAImage : Type := { Pix : list (list NRGBA); PRect : Rectangle }.

Definition NewNRGBA (r : Rectangle) : NRGBAImage :=
  {| Pix := repeat (repeat {| nR := 0; nG := 0; nB := 0; nA := 0 |}
                      (Z.to_nat (Dx r))) (Z.to_nat (Dy r));
     PRect := r |}.

Definition PointIn (x y : Z) (r : Rectangle) : bool :=
  (X (Min r) <=? x) && (x <? X (Max_ r)) && (Y (Min r) <=? y) && (y <? Y (Max_ r)).

(** The [Set] method of [image.NRGBA]: a no-op outside the rectangle. *)
Definition NRGBA_Set (p : NRGBAImage) (x y : Z) (c : NRGBA) : NRGBAImage :=
  if PointIn x y (PRect p) then
    let yi := Z.to_nat (y - Y (Min (PRect p))) in
    let xi := Z.to_nat (x - X (Min (PRect p))) in
    {| Pix := update (Pix p) yi (update (nth yi (Pix p) []) xi c);
       PRect := PRect p |}
  else p.

(** ** diff.go *)

Inductive error : Type := ErrSize.

(** ** perceptual.go *)

Definition epsilon : float := (216 / 24389)%float.
Definition kappa : float := (24389 / 27)%float.

Record perceptual : Type := {
  gamma : float;
  lum : float;
  nocolor : bool;
  fov : float;
  cf : float;
  odp : float;
  ai : Z
}.

Record labColor : Type := { l_ : float; a_ : float; b_ : float }.

Definition lapLevels : Z := 8.
Definition lapKernel : list float := [0.05; 0.25; 0.4; 0.25; 0.05]%float.

(** The index adjustment that [pyramid] applies to [ny] and to [nx]. *)
Definition reflect (n i : Z) : Z :=
  let i := if i <? 0 then - i else i in
  if i >=? n then 2 * n - i - 1 else i.

(** [copy(dst, src)] into a fresh [dst] of length [w]. *)
Definition copy_into (w : Z) (src : list float) : list float :=
  firstn (Z.to_nat w) src ++ repeat 0%float (Z.to_nat w - length src)%nat.

Definition taps : list Z := [-2; -1; 0; 1; 2].

(** The loop of [NewPerceptual]:
    [for n := 1.0; !(n > odp); n *= 2 { ai++; if ai == lapLevels-1 { break } }] *)
Fixpoint ai_loop (fuel : nat) (n odp : float) (ai : Z) : Z :=
  match fuel with
  | O => ai
  | S fuel' =>
      if negb (odp <? n)%float then
        let ai := ai + 1 in
        if ai =? lapLevels - 1 then ai
        else ai_loop fuel' (n * 2)%float odp ai
      else ai
  end.

(** [cpd[0] = c; cpd[i] = 0.5 * cpd[i-1]] *)
Fixpoint halvings (n : nat) (c : float) : list float :=
  match n with
  | O => []
  | S n' => c :: halvings n' (0.5 * c)%float
  end.

Section Perceptual.

Variable M : MathLib.

Local Open Scope float_scope.

Definition xyz (c : Color) (gamma : float) : float * float * float :=
  let rg := Pow M (float64 (cR c) / 65535) gamma in
  let gg := Pow M (float64 (cG c) / 65535) gamma in
  let bg := Pow M (float64 (cB c) / 65535) gamma in
  let x := rg * 0.576700 + gg * 0.185556 + bg * 0.188212 in
  let y := rg * 0.297361 + gg * 0.627355 + bg * 0.0752847 in
  let z := rg * 0.0270328 + gg * 0.0706879 + bg * 0.991248 in
  (x, y, z).

(** [init()]: the XYZ of white. *)
Definition white : float * float * float :=
  xyz {| cR := 65535; cG := 65535; cB := 65535; cA := 65535 |}%Z 1.

Definition whiteX : float := fst (fst white).
Definition whiteY : float := snd (fst white).
Definition whiteZ : float := snd white.

Definition lab_f (r : float) : float :=
  if (epsilon <? r)%float then Pow M r (1 / 3) else (kappa * r + 16) / 116.

Definition lab (x y z : float) : labColor :=
  let f0 := lab_f (x / whiteX) in
  let f1 := lab_f (y / whiteY) in
  let f2 := lab_f (z / whiteZ) in
  {| l_ := 116 * f1 - 16; a_ := 500 * (f0 - f1); b_ := 200 * (f1 - f2) |}.

Definition csf (cpd lum : float) : float :=
  let a := 440 * Pow M (1 + 0.7 / lum) (-0.2) in
  let b := 0.3 * Pow M (1 + 100 / lum) 0.15 in
  a * cpd * Exp M (- b * cpd) * Sqrt (1 + 0.06 * Exp M (b * cpd)).

Definition vmask (c : float) : float :=
  let a := Pow M (392.498 * c) 0.7 in
  let b := Pow M (0.0153 * a) 4 in
  Pow M (1 + b) 0.25.

Definition tvi (al : float) : float :=
  let al := Log10 M al in
  let r :=
    if (al <? -3.94)%float then (-2.86)%float
    else if (al <? -1.44)%float then Pow M (0.405 * al + 1.6) 2.18 - 2.86
    else if (al <? -0.0184)%float then al - 0.395
    else if (al <? 1.9)%float then Pow M (0.249 * al + 0.65) 2.7 - 0.72
    else al - 1.255 in
  Pow M 10 r.

(** One cell of a level [l > 0]: the 25 taps, [i] outside and [j] inside. *)
Definition convolve_at (prev : list (list float)) (h w y x : Z) : Go float :=
  foldM (fun acc i =>
    foldM (fun acc j =>
      let ny := reflect h (y + j)%Z in
      let nx := reflect w (x + i)%Z in
      ki <- index lapKernel (i + 2)%Z ;;
      kj <- index lapKernel (j + 2)%Z ;;
      row <- index prev ny ;;
      v <- index row nx ;;
      Val (acc + ki * kj * v)%float) taps acc) taps 0%float.

Definition convolve (prev : list (list float)) (h w : Z) : Go (list (list float)) :=
  mapM (fun y => mapM (fun x => convolve_at prev h w y x) (upto w)) (upto h).

(** Levels [l], [l+1], ... of the pyramid, [n] of them, from level [l-1]. *)
Fixpoint levels (n : nat) (h w : Z) (prev : list (list float))
  : Go (list (list (list float))) :=
  match n with
  | O => Val []
  | S n' =>
      cur <- convolve prev h w ;;
      rest <- levels n' h w cur ;;
      Val (cur :: rest)
  end.

Definition pyramid (m : list (list float)) : Go (list (list (list float))) :=
  row0 <- index m 0%Z ;;
  let h := len m in
  let w := len row0 in
  let level0 := map (copy_into w) m in
  rest <- levels (Z.to_nat (lapLevels - 1)%Z) h w level0 ;;
  Val (level0 :: rest).

Definition labLap (m : Image) (gamma lum : float)
  : Go (list (list labColor) * list (list (list float))) :=
  let w := Dx (Bounds m) in
  let h := Dy (Bounds m) in
  _ <- makeslice h ;;
  cells <- mapM (fun y =>
             _ <- makeslice w ;;
             Val (map (fun x =>
                    let '(cx, cy, cz) := xyz (At m x y) gamma in
                    (lab cx cy cz, (cy * lum)%float)) (upto w))) (upto h) ;;
  let aLAB := map (map fst) cells in
  let aLum := map (map snd) cells in
  p <- pyramid aLum ;;
  Val (aLAB, p).

Definition NewPerceptual (gamma luminance fov cf : float) (nocolor : bool)
  : perceptual :=
  let odp := (2 * Tan M (fov * 0.5 * Pi / 180) * 180 / Pi)%float in
  {| gamma := gamma; lum := luminance; nocolor := nocolor; fov := fov;
     cf := cf; odp := odp;
     ai := ai_loop (Z.to_nat (lapLevels - 1)%Z) 1 odp 0%Z |}.

Definition NewDefaultPerceptual : perceptual :=
  NewPerceptual 2.2 100 45 1 false.

Definition at3 (p : list (list (list float))) (l y x : Z) : Go float :=
  lv <- index p l ;; row <- index lv y ;; index row x.

(** [contrast[i]] and [mask[i]] at one pixel. *)
Definition levelContrast (aLap bLap : list (list (list float)))
    (cpd : list float) (adapt : float) (x y i : Z) : Go (float * float) :=
  a0 <- at3 aLap i y x ;; a1 <- at3 aLap (i + 1)%Z y x ;;
  b0 <- at3 bLap i y x ;; b1 <- at3 bLap (i + 1)%Z y x ;;
  a2 <- at3 aLap (i + 2)%Z y x ;; b2 <- at3 bLap (i + 2)%Z y x ;;
  let n1 := Abs (a0 - a1) in
  let n2 := Abs (b0 - b1) in
  let d1 := Abs a2 in
  let d2 := Abs b2 in
  let d := Max d1 d2 in
  let contrast := (Max n1 n2 / Max d 1e-5)%float in
  c <- index cpd i ;;
  Val (contrast, vmask (contrast * csf c adapt)).

Definition clampFactor (factor : float) : float :=
  if (factor <? 1)%float then 1%float
  else if (10 <? factor)%float then 10%float
  else factor.

(** The elevation factor of one pixel, from [contrast], [freq] and [mask]. *)
Definition pixelFactor (cm : list (float * float)) (freq : list float) : Go float :=
  let contrastSum := fold_left (fun s c => (s + fst c)%float) cm 0%float in
  let contrastSum := if (contrastSum <? 1e-5)%float then 1e-5%float else contrastSum in
  factor <- foldM (fun factor i =>
              c <- index cm i ;;
              f <- index freq i ;;
              Val (factor + fst c * f * snd c / contrastSum)%float)
            (upto (lapLevels - 2)%Z) 0%float ;;
  Val (clampFactor factor).

Definition pixelAdapt (d : perceptual) (aLap bLap : list (list (list float)))
    (x y : Z) : Go float :=
  a <- at3 aLap (ai d) y x ;;
  b <- at3 bLap (ai d) y x ;;
  Val (Max (0.5 * (a + b)) 1e-5).

(** The body of the pixel loop up to the decision [pass]. *)
Definition pixelPass (d : perceptual) (aLAB bLAB : list (list labColor))
    (aLap bLap : list (list (list float))) (cpd freq : list float)
    (x y : Z) : Go bool :=
  adapt <- pixelAdapt d aLap bLap x y ;;
  cm <- mapM (levelContrast aLap bLap cpd adapt x y) (upto (lapLevels - 2)%Z) ;;
  factor <- pixelFactor cm freq ;;
  a0 <- at3 aLap 0%Z y x ;;
  b0 <- at3 bLap 0%Z y x ;;
  let delta := Abs (a0 - b0) in
  if (factor * tvi adapt <? delta)%float then Val false
  else if negb (nocolor d) then
    let cf := if (adapt <? 10)%float then 0%float else cf d in
    ra <- index aLAB y ;; la <- index ra x ;;
    rb <- index bLAB y ;; lb <- index rb x ;;
    let da := (a_ la - a_ lb)%float in
    let db := (b_ la - b_ lb)%float in
    if (factor <? (da * da + db * db) * cf)%float then Val false else Val true
  else Val true.

Definition passColor : NRGBA := {| nR := 0; nG := 0; nB := 0; nA := 255 |}%Z.
Definition failColor : NRGBA := {| nR := 255; nG := 0; nB := 0; nA := 255 |}%Z.

Definition pixelStep (d : perceptual) (aLAB bLAB : list (list labColor))
    (aLap bLap : list (list (list float))) (cpd freq : list float)
    (y : Z) (st : NRGBAImage * Z) (x : Z) : Go (NRGBAImage * Z) :=
  let '(diff, npix) := st in
  pass <- pixelPass d aLAB bLAB aLap bLap cpd freq x y ;;
  if negb pass then Val (NRGBA_Set diff x y failColor, (npix + 1)%Z)
  else Val (NRGBA_Set diff x y passColor, npix).

Definition freqTable (cpd : list float) : Go (list float) :=
  let csfMax := csf 3.248 100 in
  mapM (fun i => c <- index cpd i ;; Val (csfMax / csf c 100)%float)
       (upto (lapLevels - 2)%Z).

Definition Compare (d : perceptual) (a b : Image)
  : Go (option NRGBAImage * Z * option error) :=
  let ab := Bounds a in
  let bb := Bounds b in
  let w := Dx ab in
  let h := Dy ab in
  if negb (w =? Dx bb)%Z || negb (h =? Dy bb)%Z then Val (None, (-1)%Z, Some ErrSize)
  else
    let diff := NewNRGBA (Rect 0 0 w h) in
    '(aLAB, aLap) <- labLap a (gamma d) (lum d) ;;
    '(bLAB, bLap) <- labLap b (gamma d) (lum d) ;;
    let cpd := halvings (Z.to_nat lapLevels) (0.5 * float64 w / odp d)%float in
    freq <- freqTable cpd ;;
    '(diff, npix) <- foldM (fun st y =>
                       foldM (pixelStep d aLAB bLAB aLap bLap cpd freq y) (upto w) st)
                     (upto h) (diff, 0%Z) ;;
    Val (Some diff, npix, None).

End Perceptual.

(** ** Specification-side definitions *)

(** A slice of [h] rows, each of [w] cells. *)
Definition shape {A : Type} (h w : Z) (g : list (list A)) : Prop :=
  len g = h /\ Forall (fun row => len row = w) g.

Definition cell (g : list (list float)) (y x : Z) : float :=
  nth (Z.to_nat x) (nth (Z.to_nat y) g []) 0%float.

(** The 5x5 kernel: the outer product of [lapKernel] with itself. *)
Definition kernel2 (i j : Z) : float :=
  (nth (Z.to_nat (i + 2)) lapKernel 0 * nth (Z.to_nat (j + 2)) lapKernel 0)%float.

(** The map extended beyond its borders by reflection. *)
Definition extend (g : list (list float)) (h w y x : Z) : float :=
  cell g (reflect h y) (reflect w x).

(** The convolution of the extended map with [kernel2] at [(y, x)]; the 25
    products are added in the order of the loops. *)
Definition blur (g : list (list float)) (h w y x : Z) : float :=
  fold_left (fun acc i =>
    fold_left (fun acc j =>
      (acc + kernel2 i j * extend g h w (y + j) (x + i))%float) taps acc)
    taps 0%float.

Definition blurLevel (g : list (list float)) (h w : Z) : list (list float) :=
  map (fun y => map (fun x => blur g h w y x) (upto w)) (upto h).

Fixpoint blurLevels (n : nat) (h w : Z) (g : list (list float))
  : list (list (list float)) :=
  match n with
  | O => []
  | S n' => blurLevel g h w :: blurLevels n' h w (blurLevel g h w)
  end.

(** [2^k] as a [float64]: the values [n] takes in the loop of
    [NewPerceptual]. *)
Definition pow2 (k : Z) : float := float64 (2 ^ k).

(** ** The difference image, read back *)

Definition zeroColor : NRGBA := {| nR := 0; nG := 0; nB := 0; nA := 0 |}.

(** The [At] method of [image.NRGBA]: the zero colour outside the rectangle. *)
Definition NRGBA_At (p : NRGBAImage) (x y : Z) : NRGBA :=
  if PointIn x y (PRect p) then
    nth (Z.to_nat (x - X (Min (PRect p))))
        (nth (Z.to_nat (y - Y (Min (PRect p)))) (Pix p) []) zeroColor
  else zeroColor.

(** The pixel buffer has one row per line of the rectangle and one cell per
    column. *)
Definition wfImage (p : NRGBAImage) : Prop :=
  shape (Dy (PRect p)) (Dx (PRect p)) (Pix p).

(** The pixels [(x, y)] in the order in which [Compare] visits them. *)
Definition pixels (w h : Z) : list (Z * Z) :=
  flat_map (fun y => map (fun x => (x, y)) (upto w)) (upto h).

Definition NRGBA_eqb (c c' : NRGBA) : bool :=
  (nR c =? nR c') && (nG c =? nG c') && (nB c =? nB c') && (nA c =? nA c').

(** The number of pixels of [p] in [0, w) x [0, h) that are painted [c]. *)
Definition countColor (p : NRGBAImage) (c : NRGBA) (w h : Z) : Z :=
  len (filter (fun xy => NRGBA_eqb (NRGBA_At p (fst xy) (snd xy)) c) (pixels w h)).

(** One round of the pixel loop, once the decision [pass] is known. *)
Definition paint (pass : Z -> Z -> bool) (st : NRGBAImage * Z) (xy : Z * Z)
  : NRGBAImage * Z :=
  let '(x, y) := xy in
  (NRGBA_Set (fst st) x y (if pass x y then passColor else failColor),
   if pass x y then snd st else snd st + 1).

(** A pyramid: [lapLevels] levels of [h] rows and [w] columns. *)
Definition levelsShape (h w : Z) (p : list (list (list float))) : Prop :=
  len p = lapLevels /\ Forall (shape h w) p.

(** The sizes on which [pyramid] returns: at least one row, and either no
    column or at least two rows and two columns. *)
Definition okDims (h w : Z) : Prop := 1 <= h /\ (w = 0 \/ (2 <= h /\ 2 <= w)).

(** What [labLap] stores in [aLAB] and in [aLum]. *)
Definition labGrid (M : MathLib) (m : Image) (gamma : float) : list (list labColor) :=
  map (fun y => map (fun x =>
         let '(cx, cy, cz) := xyz M (At m x y) gamma in lab M cx cy cz)
       (upto (Dx (Bounds m)))) (upto (Dy (Bounds m))).

Definition lumGrid (M : MathLib) (m : Image) (gamma lum : float) : list (list float) :=
  map (fun y => map (fun x =>
         let '(cx, cy, cz) := xyz M (At m x y) gamma in (cy * lum)%float)
       (upto (Dx (Bounds m)))) (upto (Dy (Bounds m))).

(** ** Examples *)

(** A math library and images on which the theorems below are instantiated;
    the theorems themselves hold for every [MathLib] and every image. *)
Definition exampleMath : MathLib :=
  {| Pow := fun x _ => PrimFloat.abs x;
     Exp := fun x => x;
     Log10 := fun x => x;
     Tan := fun x => x |}.

Definition uniformImage (w h : Z) (c : Color) : Image :=
  {| Bounds := Rect 0 0 w h; At := fun _ _ => c |}.

Definition grey : Color := {| cR := 32768; cG := 32768; cB := 32768; cA := 65535 |}.
Definition black : Color := {| cR := 0; cG := 0; cB := 0; cA := 65535 |}.

(** An image whose rectangle does not start at the origin, with transparent
    pixels outside [(0, 0) - (2, 2)]. *)
Definition shiftedImage : Image :=
  {| Bounds := {| Min := {| X := 5; Y := 7 |}; Max_ := {| X := 7; Y := 9 |} |};
     At := fun x y =>
       if (0 <=? x) && (x <? 2) && (0 <=? y) && (y <? 2)
       then {| cR := 32768; cG := 32768; cB := 32768; cA := 0 |}
       else {| cR := 0; cG := 0; cB := 0; cA := 0 |} |}.

(** ** cmd/imgdiff: the threshold *)

(** A Go string: its bytes. *)
Definition gostring : Type := list Byte.byte.

(** [b == '%'] *)
Definition isPercent (b : Byte.byte) : bool :=
  match b with Byte.x25 => true | _ => false end.

Record thresholdVar : Type := { value : float; percent : bool }.

Section Threshold.

(** [strconv.ParseFloat(t, 64)]: a value, or an error of type [E]. *)
Variable E : Type.
Variable ParseFloat : gostring -> float + E.

(** The [Set] method of [thresholdVar]: the variable after the call, and the
    error returned. *)
Definition thresholdVar_Set (v : thresholdVar) (t : gostring)
  : thresholdVar * option E :=
  if (len t =? 0)%Z then ({| value := 0; percent := percent v |}, None)
  else
    let '(pct, t) :=
      if isPercent (last t Byte.x00) then (true, removelast t) else (false, t) in
    match ParseFloat t with
    | inr err => (v, Some err)
    | inl val => ({| value := val; percent := pct |}, None)
    end.

End Threshold.

(** The test of [run], once [Compare] has returned [n] and an image of [dx]
    by [dy]: [true] when [run] goes on to report the difference and to exit
    with status 1, [false] when it returns before.  (The product [dx * dy]
    is far below 2^63 for an image held in memory.) *)
Definition reportsDifference (threshold : thresholdVar) (n dx dy : Z) : bool :=
  let np := (float64 n / float64 (dx * dy))%float in
  if (percent threshold && negb (value threshold <? np)%float)
     || negb (value threshold <? float64 n)%float
  then false else true.

(** [strconv.ParseFloat] on the strings of the examples. *)
Definition exampleParse (t : gostring) : float + unit :=
  match t with
  | [Byte.x35] => inl 5%float
  | [Byte.x30; Byte.x2e; Byte.x35] => inl 0.5%float
  | _ => inr tt
  end.

(** * Facts *)

(** ** IEEE 754 binary64: what the comparator relies on

    Each fact is first proved on [spec_float], the bit-level specification of
    the primitive operations, and then carried over to [float]. *)

Module IEEE.

Lemma bra_cases s m e l :
  binary_round_aux prec emax s m e l = S754_zero s \/
  binary_round_aux prec emax s m e l = S754_infinity s \/
  binary_round_aux prec emax s m e l = S754_nan \/
  exists m' e', binary_round_aux prec emax s m e l = S754_finite s m' e'.
Proof.
  unfold binary_round_aux.
  destruct (shr_fexp prec emax m e l) as [mrs' e'].
  destruct (shr_fexp prec emax _ e' loc_Exact) as [mrs'' e''].
  destruct (shr_m mrs'') as [|p|p]; [now left | | now right; right; left].
  destruct (e'' <=? emax - prec); [right; right; right; eauto | now right; left].
Qed.

(** A value that is not below zero: NaN, a zero, or a positive number. *)
Definition nonneg (x : spec_float) : Prop := SFltb x (S754_zero false) = false.
(** A zero of either sign, or NaN. *)
Definition zero_or_nan (x : spec_float) : Prop :=
  match x with S754_zero _ | S754_nan => True | _ => False end.

Lemma bra_nonneg m e l : nonneg (binary_round_aux prec emax false m e l).
Proof.
  destruct (bra_cases false m e l) as [H|[H|[H|(m' & e' & H)]]]; rewrite H; reflexivity.
Qed.

Lemma SF1 : Prim2SF 1 = S754_finite false 4503599627370496 (-52).
Proof. reflexivity. Qed.
Lemma SF0 : Prim2SF 0 = S754_zero false.
Proof. reflexivity. Qed.

Lemma ge1_cases x :
  SFltb x (S754_finite false 4503599627370496 (-52)) = false ->
  x = S754_nan \/ x = S754_infinity false \/ exists m e, x = S754_finite false m e.
Proof.
  destruct x as [s|s| |s m e]; auto.
  - discriminate.
  - destruct s; [discriminate | auto].
  - destruct s; [discriminate | eauto].
Qed.

Lemma nonneg_cases x :
  nonneg x ->
  x = S754_nan \/ (exists s, x = S754_zero s) \/ x = S754_infinity false \/
  exists m e, x = S754_finite false m e.
Proof.
  unfold nonneg. destruct x as [s|s| |s m e]; cbn; try discriminate; eauto.
  - destruct s; [discriminate | auto].
  - destruct s; [discriminate | eauto 6].
Qed.

Lemma mul_ge1_nonneg_sf f t :
  SFltb f (S754_finite false 4503599627370496 (-52)) = false -> nonneg t ->
  nonneg (SF64mul f t).
Proof.
  intros Hf Ht.
  destruct (ge1_cases _ Hf) as [->|[->|(m & e & ->)]];
  destruct (nonneg_cases _ Ht) as [->|[(s & ->)|[->|(m' & e' & ->)]]];
  try reflexivity.
  apply bra_nonneg.
Qed.

Lemma mul_ge1_nonneg (f t : float) :
  (f <? 1)%float = false -> (t <? 0)%float = false -> (f * t <? 0)%float = false.
Proof.
  rewrite !FloatAxioms.ltb_spec, FloatAxioms.mul_spec, SF1, SF0.
  apply mul_ge1_nonneg_sf.
Qed.

Lemma ge1_ltb_zero_or_nan f z :
  SFltb f (S754_finite false 4503599627370496 (-52)) = false -> zero_or_nan z ->
  SFltb f z = false.
Proof.
  intros Hf Hz.
  destruct (ge1_cases _ Hf) as [->|[->|(m & e & ->)]]; destruct z; try contradiction; reflexivity.
Qed.

Lemma sub_self_sf x : SF64sub x x = S754_zero false \/ SF64sub x x = S754_nan.
Proof.
  destruct x as [s|s| |s m e]; cbn.
  - destruct s; auto.
  - destruct s; auto.
  - auto.
  - left. unfold SF64sub, SFsub. rewrite Z.sub_diag. reflexivity.
Qed.

Lemma ltb_abs_sub_self (t x : float) :
  (t <? 0)%float = false -> (t <? Abs (x - x))%float = false.
Proof.
  unfold Abs. rewrite !FloatAxioms.ltb_spec, abs_spec, FloatAxioms.sub_spec, SF0.
  intros Ht. destruct (sub_self_sf (Prim2SF x)) as [-> | ->]; cbn; [exact Ht|].
  destruct (Prim2SF t); reflexivity.
Qed.

Lemma mul_zero_sf x : zero_or_nan (SF64mul x (S754_zero false)).
Proof. destruct x as [s|s| |s m e]; exact I. Qed.

Lemma ltb_mul_zero (f x : float) :
  (f <? 1)%float = false -> (f <? x * 0)%float = false.
Proof.
  rewrite !FloatAxioms.ltb_spec, FloatAxioms.mul_spec, SF1, SF0.
  intros Hf. apply ge1_ltb_zero_or_nan; [exact Hf | apply mul_zero_sf].
Qed.

Lemma chroma_self_sf a b c :
  zero_or_nan (SF64mul (SF64add (SF64mul (SF64sub a a) (SF64sub a a))
                                (SF64mul (SF64sub b b) (SF64sub b b))) c).
Proof.
  destruct (sub_self_sf a) as [-> | ->], (sub_self_sf b) as [-> | ->];
    destruct c as [s|s| |s m e]; exact I.
Qed.

Lemma chroma_self (f a b c : float) :
  (f <? 1)%float = false ->
  (f <? ((a - a) * (a - a) + (b - b) * (b - b)) * c)%float = false.
Proof.
  rewrite !FloatAxioms.ltb_spec, !FloatAxioms.mul_spec, FloatAxioms.add_spec,
    !FloatAxioms.mul_spec, !FloatAxioms.sub_spec, SF1.
  intros Hf. apply ge1_ltb_zero_or_nan; [exact Hf | apply chroma_self_sf].
Qed.

Lemma clamp_lo f : (clampFactor f <? 1)%float = false.
Proof.
  unfold clampFactor. destruct (f <? 1)%float eqn:H1; [reflexivity|].
  destruct (10 <? f)%float eqn:H2; [reflexivity | exact H1].
Qed.

Lemma clamp_hi f : (10 <? clampFactor f)%float = false.
Proof.
  unfold clampFactor. destruct (f <? 1)%float eqn:H1; [reflexivity|].
  destruct (10 <? f)%float eqn:H2; [reflexivity | exact H2].
Qed.


Lemma SFinf : Prim2SF infinity = S754_infinity false.
Proof. reflexivity. Qed.

Lemma add_comm_sf x y : SF64add x y = SF64add y x.
Proof.
  destruct x as [s|s| |s m e], y as [s'|s'| |s' m' e']; try reflexivity;
    try (destruct s, s'; reflexivity).
  unfold SF64add, SFadd. rewrite (Z.min_comm e' e), Z.add_comm. reflexivity.
Qed.

Lemma add_comm (x y : float) : (x + y = y + x)%float.
Proof. apply Prim2SF_inj. rewrite !FloatAxioms.add_spec. apply add_comm_sf. Qed.

Lemma bra_opp s m e l :
  binary_round_aux prec emax (negb s) m e l = SFopp (binary_round_aux prec emax s m e l).
Proof.
  unfold binary_round_aux.
  destruct (shr_fexp prec emax m e l) as [mrs' e'].
  destruct (shr_fexp prec emax _ e' loc_Exact) as [mrs'' e''].
  destruct (shr_m mrs'') as [|p|p]; try reflexivity.
  destruct (e'' <=? emax - prec); reflexivity.
Qed.

Lemma normalize_opp z e :
  binary_normalize prec emax (- z) e false = SFopp (binary_normalize prec emax z e false) \/
  (binary_normalize prec emax z e false = S754_zero false /\
   binary_normalize prec emax (- z) e false = S754_zero false).
Proof.
  destruct z as [|p|p]; cbn [Z.opp binary_normalize].
  - right. split; reflexivity.
  - left. unfold binary_round. destruct (shl_align p e _) as [mz ez].
    apply (bra_opp false).
  - left. unfold binary_round. destruct (shl_align p e _) as [mz ez].
    apply (bra_opp true).
Qed.

(** [y - x] is the opposite of [x - y], except that both are [+0] when the
    difference of two finite numbers vanishes. *)
Lemma sub_swap_sf x y :
  SF64sub y x = SFopp (SF64sub x y) \/
  (SF64sub x y = S754_zero false /\ SF64sub y x = S754_zero false).
Proof.
  destruct x as [s|s| |s m e], y as [s'|s'| |s' m' e'];
    try (left; reflexivity);
    try (destruct s, s'; (left; reflexivity) || (right; split; reflexivity)).
  unfold SF64sub, SFsub. rewrite (Z.min_comm e' e).
  set (A := cond_Zopp s _). set (B := cond_Zopp s' _).
  replace (B - A) with (- (A - B)) by lia.
  apply normalize_opp.
Qed.

Lemma abs_opp_sf d : SFabs (SFopp d) = SFabs d.
Proof. destruct d; reflexivity. Qed.

Lemma sq_opp_sf d : SF64mul (SFopp d) (SFopp d) = SF64mul d d.
Proof. destruct d as [s|s| |s m e]; try reflexivity; destruct s; reflexivity. Qed.

Lemma Abs_sub_swap (a b : float) : Abs (a - b) = Abs (b - a).
Proof.
  apply Prim2SF_inj. unfold Abs. rewrite !abs_spec, !FloatAxioms.sub_spec.
  destruct (sub_swap_sf (Prim2SF a) (Prim2SF b)) as [-> | [-> ->]];
    [apply eq_sym, abs_opp_sf | reflexivity].
Qed.

Lemma sq_sub_swap (a b : float) : ((a - b) * (a - b) = (b - a) * (b - a))%float.
Proof.
  apply Prim2SF_inj. rewrite !FloatAxioms.mul_spec, !FloatAxioms.sub_spec.
  destruct (sub_swap_sf (Prim2SF a) (Prim2SF b)) as [-> | [-> ->]];
    [apply eq_sym, sq_opp_sf | reflexivity].
Qed.

Lemma get_sign_zero x s : Prim2SF x = S754_zero s -> get_sign x = s.
Proof.
  intros H. unfold get_sign, PrimFloat.is_zero.
  rewrite FloatAxioms.eqb_spec, H. cbn.
  rewrite FloatAxioms.ltb_spec, FloatAxioms.div_spec, H. destruct s; reflexivity.
Qed.

Lemma SFcompare_antisym x y :
  SFcompare y x = option_map CompOpp (SFcompare x y).
Proof.
  destruct x as [s|s| |s m e], y as [s'|s'| |s' m' e']; try reflexivity;
    try (destruct s; reflexivity); try (destruct s'; reflexivity);
    try (destruct s, s'; reflexivity).
  cbn. destruct s, s'; try reflexivity.
  - rewrite (Z.compare_antisym e e'). destruct (e ?= e'); try reflexivity.
    cbn. rewrite (Pos.compare_cont_antisym m m' Eq). reflexivity.
  - rewrite (Z.compare_antisym e e'). destruct (e ?= e'); try reflexivity.
    cbn. rewrite (Pos.compare_cont_antisym m m' Eq). cbn.
    destruct (Pos.compare_cont Eq m m'); reflexivity.
Qed.

Lemma SFcompare_Eq x y :
  SFcompare x y = Some Eq -> x = y \/ exists s s', x = S754_zero s /\ y = S754_zero s'.
Proof.
  destruct x as [s|s| |s m e], y as [s'|s'| |s' m' e']; cbn; try discriminate;
    try (destruct s; discriminate); try (destruct s'; discriminate).
  - eauto.
  - destruct s, s'; try discriminate; auto.
  - destruct s, s'; try discriminate; destruct (e ?= e') eqn:He; try discriminate;
      apply Z.compare_eq in He; subst e'; intros Hm.
    + left. f_equal. apply Pos.compare_eq.
      destruct (Pos.compare_cont Eq m m') eqn:Hc; try discriminate.
      exact Hc.
    + left. f_equal. apply Pos.compare_eq. injection Hm as Hm. exact Hm.
Qed.

Lemma Max_comm (x y : float) : Max x y = Max y x.
Proof.
  unfold Max, is_nan.
  rewrite !FloatAxioms.eqb_spec, !FloatAxioms.ltb_spec, SFinf, SF0.
  rewrite (orb_comm (SFeqb (Prim2SF y) _) (SFeqb (Prim2SF x) _)).
  rewrite (orb_comm (negb (SFeqb (Prim2SF y) _)) (negb (SFeqb (Prim2SF x) _))).
  destruct (SFeqb (Prim2SF x) (S754_infinity false) || SFeqb (Prim2SF y) (S754_infinity false));
    [reflexivity|].
  destruct (negb (SFeqb (Prim2SF x) (Prim2SF x)) || negb (SFeqb (Prim2SF y) (Prim2SF y))) eqn:Hnan;
    [reflexivity|].
  apply orb_false_elim in Hnan. destruct Hnan as [Hnx Hny].
  unfold SFeqb, SFltb in *.
  rewrite (SFcompare_antisym (Prim2SF x) (Prim2SF y)).
  destruct (SFcompare (Prim2SF x) (Prim2SF y)) as [[| |]|] eqn:Hc.
  - destruct (SFcompare_Eq _ _ Hc) as [He | (s & s' & Hx & Hy)].
    + apply Prim2SF_inj in He. subst y. reflexivity.
    + rewrite (get_sign_zero _ _ Hx), (get_sign_zero _ _ Hy), Hx, Hy. cbn.
      destruct s, s'; try reflexivity; apply Prim2SF_inj; congruence.
  - cbn [option_map CompOpp]. rewrite !andb_false_r. reflexivity.
  - cbn [option_map CompOpp]. rewrite !andb_false_r. reflexivity.
  - exfalso. destruct (Prim2SF x) as [s|s| |s m e], (Prim2SF y) as [s'|s'| |s' m' e'];
      cbn in *; try discriminate;
      try (destruct s; discriminate); try (destruct s'; discriminate);
      try (destruct s, s'; discriminate).
Qed.

Lemma SFcompare_refl x : x <> S754_nan -> SFcompare x x = Some Eq.
Proof.
  destruct x as [s|s| |s m e]; intros H; try reflexivity; try (now contradiction H).
  - destruct s; reflexivity.
  - cbn. destruct s; rewrite Z.compare_refl, Pos.compare_cont_refl; reflexivity.
Qed.

Lemma SFcompare_None x y : SFcompare x y = None -> x = S754_nan \/ y = S754_nan.
Proof.
  destruct x as [s|s| |s m e], y as [s'|s'| |s' m' e']; cbn; auto; try discriminate;
    try (destruct s; discriminate); try (destruct s'; discriminate);
    try (destruct s, s'; discriminate).
Qed.

Lemma is_nan_sf (f : float) : is_nan f = true <-> Prim2SF f = S754_nan.
Proof.
  unfold is_nan. rewrite FloatAxioms.eqb_spec. unfold SFeqb. split.
  - intros H. destruct (Prim2SF f) as [s|s| |s m e] eqn:E; [| |reflexivity|];
      rewrite SFcompare_refl in H by discriminate; discriminate.
  - intros ->. reflexivity.
Qed.

Lemma not_nan_sf (f : float) : is_nan f = false <-> Prim2SF f <> S754_nan.
Proof.
  rewrite <- is_nan_sf. destruct (is_nan f); split; congruence.
Qed.

Lemma ltb_not_nan (a b : float) :
  (a <? b)%float = true -> is_nan a = false /\ is_nan b = false.
Proof.
  rewrite FloatAxioms.ltb_spec, !not_nan_sf. unfold SFltb.
  destruct (Prim2SF a) as [s|s| |s m e], (Prim2SF b) as [s'|s'| |s' m' e'];
    cbn; try discriminate; intros _; split; discriminate.
Qed.

Lemma nlt_le (a b : float) :
  (a <? b)%float = false -> is_nan a = false -> is_nan b = false -> (b <=? a)%float = true.
Proof.
  rewrite FloatAxioms.ltb_spec, FloatAxioms.leb_spec, !not_nan_sf. unfold SFltb, SFleb.
  rewrite (SFcompare_antisym (Prim2SF a) (Prim2SF b)).
  destruct (SFcompare (Prim2SF a) (Prim2SF b)) as [[| |]|] eqn:Hc;
    try reflexivity; try discriminate.
  intros _ Ha Hb. destruct (SFcompare_None _ _ Hc); contradiction.
Qed.

(** A NaN is absorbing for [/] on the right and for [+]. *)
Lemma div_nan (x d : float) : is_nan d = true -> is_nan (x / d)%float = true.
Proof.
  rewrite !is_nan_sf, FloatAxioms.div_spec. intros ->.
  destruct (Prim2SF x); reflexivity.
Qed.

Lemma add_nan_r (x y : float) : is_nan y = true -> is_nan (x + y)%float = true.
Proof.
  rewrite !is_nan_sf, FloatAxioms.add_spec. intros ->.
  destruct (Prim2SF x); reflexivity.
Qed.

Lemma ltb_nan_l (x y : float) : is_nan x = true -> (x <? y)%float = false.
Proof.
  rewrite is_nan_sf, FloatAxioms.ltb_spec. intros ->. reflexivity.
Qed.

Lemma ltb_nan_r (x y : float) : is_nan y = true -> (x <? y)%float = false.
Proof.
  rewrite is_nan_sf, FloatAxioms.ltb_spec. intros ->.
  destruct (Prim2SF x); reflexivity.
Qed.

(** A zero stays a zero, or turns into NaN, under [*] and as a dividend. *)
Lemma mul_zon_r x z : zero_or_nan z -> zero_or_nan (SF64mul x z).
Proof.
  destruct x as [s|s| |s m e], z as [s'|s'| |s' m' e']; intros H;
    first [exact I | destruct H].
Qed.

Lemma mul_zon_l z y : zero_or_nan z -> zero_or_nan (SF64mul z y).
Proof.
  destruct z as [s|s| |s m e], y as [s'|s'| |s' m' e']; intros H;
    first [exact I | destruct H].
Qed.

Lemma div_zon_l z y : zero_or_nan z -> zero_or_nan (SF64div z y).
Proof.
  destruct z as [s|s| |s m e], y as [s'|s'| |s' m' e']; intros H;
    first [exact I | destruct H].
Qed.

Lemma zon_spec (f : float) :
  zero_or_nan (Prim2SF f) -> (f =? 0)%float = true \/ is_nan f = true.
Proof.
  intros H. destruct (Prim2SF f) as [s|s| |s m e] eqn:E; try contradiction.
  - left. rewrite FloatAxioms.eqb_spec, E. reflexivity.
  - right. now apply is_nan_sf.
Qed.

Lemma ltb_irrefl (x : float) : (x <? x)%float = false.
Proof.
  rewrite FloatAxioms.ltb_spec. unfold SFltb.
  destruct (Prim2SF x) as [s|s| |s m e] eqn:E; try reflexivity;
    rewrite SFcompare_refl by discriminate; reflexivity.
Qed.

Lemma ltb_asym (x y : float) : (y <? x)%float = true -> (x <? y)%float = false.
Proof.
  rewrite !FloatAxioms.ltb_spec. unfold SFltb.
  rewrite (SFcompare_antisym (Prim2SF y) (Prim2SF x)).
  destruct (SFcompare (Prim2SF y) (Prim2SF x)) as [[| |]|]; try discriminate.
  reflexivity.
Qed.

Lemma eqb_not_ltb (x y : float) : (x =? y)%float = true -> (x <? y)%float = false.
Proof.
  rewrite FloatAxioms.eqb_spec, FloatAxioms.ltb_spec. unfold SFeqb, SFltb.
  destruct (SFcompare (Prim2SF x) (Prim2SF y)) as [[| |]|]; try discriminate.
  reflexivity.
Qed.

Lemma ltb_inf_l (y : float) : (infinity <? y)%float = false.
Proof.
  rewrite FloatAxioms.ltb_spec, SFinf.
  destruct (Prim2SF y) as [s|s| |s m e]; try reflexivity. destruct s; reflexivity.
Qed.

(** [math.Max(x, y)] is never below [y]. *)
Lemma Max_not_below_r (x y : float) : (Max x y <? y)%float = false.
Proof.
  unfold Max.
  destruct ((x =? infinity)%float || (y =? infinity)%float); [apply ltb_inf_l|].
  destruct (is_nan x || is_nan y); [now apply ltb_nan_l|].
  destruct ((x =? 0)%float && (x =? y)%float) eqn:Hz.
  - apply andb_true_iff in Hz as [_ Hxy].
    destruct (get_sign x); [apply ltb_irrefl | now apply eqb_not_ltb].
  - destruct (y <? x)%float eqn:Hlt; [now apply ltb_asym | apply ltb_irrefl].
Qed.

End IEEE.

(** ** The [Go] monad, slices and loops *)

Lemma index_Val {A : Type} (s : list A) (i : Z) :
  0 <= i < len s -> exists a, index s i = Val a /\ nth_error s (Z.to_nat i) = Some a.
Proof.
  unfold index, len. intros [H0 H1].
  destruct (Z.ltb_spec i 0) as [Hlt|_]; [lia|].
  destruct (nth_error s (Z.to_nat i)) as [a|] eqn:Hn.
  - exists a. split; reflexivity.
  - apply nth_error_None in Hn. lia.
Qed.

Lemma index_inv {A : Type} (s : list A) (i : Z) (a : A) :
  index s i = Val a -> 0 <= i < len s /\ nth_error s (Z.to_nat i) = Some a.
Proof.
  unfold index, len.
  destruct (Z.ltb_spec i 0) as [Hlt|Hge]; [discriminate|].
  destruct (nth_error s (Z.to_nat i)) as [a'|] eqn:Hn; [|discriminate].
  intros [= ->]. split; [|reflexivity].
  assert (Z.to_nat i < length s)%nat by (apply nth_error_Some; congruence). lia.
Qed.

Lemma index_out {A : Type} (s : list A) (i : Z) :
  i < 0 \/ len s <= i -> index s i = Panic.
Proof.
  unfold index, len. intros H.
  destruct (Z.ltb_spec i 0) as [Hlt|Hge]; [reflexivity|].
  destruct (nth_error s (Z.to_nat i)) as [a'|] eqn:Hn; [|reflexivity].
  assert (Z.to_nat i < length s)%nat by (apply nth_error_Some; congruence). lia.
Qed.

Lemma In_upto (n i : Z) : In i (upto n) <-> 0 <= i < n.
Proof.
  unfold upto. rewrite in_map_iff. split.
  - intros (k & <- & Hk). apply in_seq in Hk. lia.
  - intros H. exists (Z.to_nat i). split; [lia|]. apply in_seq. lia.
Qed.

Lemma length_upto (n : Z) : length (upto n) = Z.to_nat n.
Proof. unfold upto. now rewrite length_map, length_seq. Qed.

Lemma mapM_Val {A B : Type} (f : A -> Go B) (l : list A) :
  (forall a, In a l -> exists b, f a = Val b) ->
  exists bs, mapM f l = Val bs /\ Forall2 (fun a b => f a = Val b) l bs.
Proof.
  induction l as [|a l IH]; intros H.
  - exists []. split; [reflexivity | constructor].
  - destruct (H a (or_introl eq_refl)) as (b & Hb).
    destruct IH as (bs & Hbs & HF); [intros; apply H; now right|].
    exists (b :: bs). cbn. rewrite Hb. cbn. rewrite Hbs. cbn.
    split; [reflexivity | now constructor].
Qed.

Lemma mapM_inv {A B : Type} (f : A -> Go B) (l : list A) (bs : list B) :
  mapM f l = Val bs -> Forall2 (fun a b => f a = Val b) l bs.
Proof.
  revert bs. induction l as [|a l IH]; cbn; intros bs.
  - intros [= <-]. constructor.
  - destruct (f a) as [b|] eqn:Hb; [|discriminate]. cbn.
    destruct (mapM f l) as [bs'|]; [|discriminate]. cbn.
    intros [= <-]. constructor; [exact Hb | now apply IH].
Qed.

Lemma mapM_ext {A B : Type} (f g : A -> Go B) (l : list A) :
  (forall a, In a l -> f a = g a) -> mapM f l = mapM g l.
Proof.
  induction l as [|a l IH]; intros H; [reflexivity|].
  cbn. rewrite (H a (or_introl eq_refl)), IH; [reflexivity|].
  intros; apply H; now right.
Qed.

Lemma mapM_Panic {A B : Type} (f : A -> Go B) (l : list A) (a : A) :
  In a l -> f a = Panic -> mapM f l = Panic.
Proof.
  induction l as [|a' l IH]; [contradiction|].
  intros [-> | Hin] Ha; cbn.
  - now rewrite Ha.
  - destruct (f a'); [|reflexivity]. cbn. now rewrite (IH Hin Ha).
Qed.

Lemma foldM_ext {S A : Type} (f g : S -> A -> Go S) (l : list A) (s : S) :
  (forall s a, In a l -> f s a = g s a) -> foldM f l s = foldM g l s.
Proof.
  revert s. induction l as [|a l IH]; intros s H; [reflexivity|].
  cbn. rewrite (H s a (or_introl eq_refl)).
  destruct (g s a) as [s'|]; [|reflexivity]. cbn.
  apply IH. intros; apply H; now right.
Qed.

(** Two loops over the same range, run in lock step. *)
Definition relGo {A B : Type} (R : A -> B -> Prop) (x : Go A) (y : Go B) : Prop :=
  match x, y with
  | Val a, Val b => R a b
  | Panic, Panic => True
  | _, _ => False
  end.

Lemma foldM_rel {S T A : Type} (R : S -> T -> Prop)
    (f : S -> A -> Go S) (g : T -> A -> Go T) (l : list A) :
  (forall s t a, In a l -> R s t -> relGo R (f s a) (g t a)) ->
  forall s t, R s t -> relGo R (foldM f l s) (foldM g l t).
Proof.
  induction l as [|a l IH]; intros H s t Hst; [exact Hst|].
  cbn. specialize (H s t a (or_introl eq_refl) Hst) as Ha.
  destruct (f s a) as [s'|], (g t a) as [t'|]; cbn in *; try contradiction; [|exact I].
  apply IH; [|exact Ha]. intros; apply H; [now right | assumption].
Qed.

(** A loop whose every step returns, returns; an invariant of the steps
    holds of its result. *)
Lemma foldM_inv {S A : Type} (I : list A -> S -> Prop) (f : S -> A -> Go S)
    (l : list A) (s0 : S) :
  I [] s0 ->
  (forall pre a post s, l = pre ++ a :: post -> I pre s ->
      exists s', f s a = Val s' /\ I (pre ++ [a]) s') ->
  exists s', foldM f l s0 = Val s' /\ I l s'.
Proof.
  intros H0 Hstep.
  assert (G : forall post pre s, l = pre ++ post -> I pre s ->
            exists s', foldM f post s = Val s' /\ I l s').
  { induction post as [|a post IH]; intros pre s Hl Hs.
    - exists s. rewrite app_nil_r in Hl. subst pre. split; [reflexivity | exact Hs].
    - destruct (Hstep pre a post s Hl Hs) as (s' & Hf & Hs').
      cbn. rewrite Hf. cbn. apply (IH (pre ++ [a])); [|exact Hs'].
      rewrite <- app_assoc. exact Hl. }
  apply (G l [] s0); [reflexivity | exact H0].
Qed.

Lemma index_nth {A : Type} (s : list A) (i : Z) (d : A) :
  0 <= i < len s -> index s i = Val (nth (Z.to_nat i) s d).
Proof.
  intros H. destruct (index_Val s i H) as (a & Hi & Hn).
  rewrite Hi. f_equal. symmetry. now apply nth_error_nth.
Qed.

Lemma mapM_pure {A B : Type} (f : A -> Go B) (g : A -> B) (l : list A) :
  (forall a, In a l -> f a = Val (g a)) -> mapM f l = Val (map g l).
Proof.
  induction l as [|a l IH]; intros H; [reflexivity|].
  cbn. rewrite (H a (or_introl eq_refl)). cbn.
  rewrite IH; [reflexivity | intros; apply H; now right].
Qed.

Lemma foldM_pure {S A : Type} (f : S -> A -> Go S) (g : S -> A -> S) (l : list A) :
  (forall s a, In a l -> f s a = Val (g s a)) ->
  forall s, foldM f l s = Val (fold_left g l s).
Proof.
  induction l as [|a l IH]; intros H s; [reflexivity|].
  cbn. rewrite (H s a (or_introl eq_refl)). cbn.
  apply IH. intros; apply H; now right.
Qed.

Lemma nth_upto (n i d : Z) : 0 <= i < n -> nth (Z.to_nat i) (upto n) d = i.
Proof.
  intros H. unfold upto.
  rewrite (nth_indep _ d (Z.of_nat 0)) by (rewrite length_map, length_seq; lia).
  rewrite map_nth, seq_nth by lia. lia.
Qed.

(** ** The pyramid *)

Lemma reflect_range (n p o : Z) :
  2 <= n -> 0 <= p < n -> -2 <= o <= 2 -> 0 <= reflect n (p + o) < n.
Proof.
  intros Hn Hp Ho. unfold reflect.
  destruct (Z.ltb_spec (p + o) 0); destruct (Z.geb_spec (- (p + o)) n);
    destruct (Z.geb_spec (p + o) n); lia.
Qed.

Lemma In_taps (o : Z) : In o taps <-> -2 <= o <= 2.
Proof. unfold taps. cbn. lia. Qed.

Lemma shape_cell_row {A : Type} (h w : Z) (g : list (list A)) (y : Z) :
  shape h w g -> 0 <= y < h -> len (nth (Z.to_nat y) g []) = w.
Proof.
  intros [Hh Hw] Hy. rewrite Forall_forall in Hw. apply Hw.
  apply nth_In. unfold len in Hh. lia.
Qed.

Lemma tap_in_bounds (prev : list (list float)) (h w y x i j : Z) (acc : float) :
  shape h w prev -> 2 <= h -> 2 <= w -> 0 <= y < h -> 0 <= x < w ->
  In i taps -> In j taps ->
  (ki <- index lapKernel (i + 2) ;;
   kj <- index lapKernel (j + 2) ;;
   row <- index prev (reflect h (y + j)) ;;
   v <- index row (reflect w (x + i)) ;;
   Val (acc + ki * kj * v)%float)
  = Val (acc + kernel2 i j * extend prev h w (y + j) (x + i))%float.
Proof.
  intros Hs Hh Hw Hy Hx Hi Hj.
  apply In_taps in Hi as Hi'. apply In_taps in Hj as Hj'.
  pose proof (reflect_range h y j Hh Hy Hj') as Ry.
  pose proof (reflect_range w x i Hw Hx Hi') as Rx.
  rewrite (index_nth lapKernel (i + 2) 0%float) by (cbn; lia). cbn [bind].
  rewrite (index_nth lapKernel (j + 2) 0%float) by (cbn; lia). cbn [bind].
  rewrite (index_nth prev _ []) by (destruct Hs as [-> _]; exact Ry). cbn [bind].
  rewrite (index_nth _ _ 0%float) by (rewrite (shape_cell_row h w prev _ Hs Ry); exact Rx).
  reflexivity.
Qed.

Lemma convolve_at_blur (prev : list (list float)) (h w y x : Z) :
  shape h w prev -> 2 <= h -> 2 <= w -> 0 <= y < h -> 0 <= x < w ->
  convolve_at prev h w y x = Val (blur prev h w y x).
Proof.
  intros Hs Hh Hw Hy Hx. unfold convolve_at, blur.
  apply foldM_pure. intros acc i Hi.
  apply foldM_pure. intros acc' j Hj.
  now apply tap_in_bounds.
Qed.

Lemma shape_blurLevel (prev : list (list float)) (h w : Z) :
  0 <= h -> 0 <= w -> shape h w (blurLevel prev h w).
Proof.
  intros Hh Hw. unfold blurLevel, shape, len. split.
  - rewrite length_map, length_upto. lia.
  - apply Forall_forall. intros r Hr. apply in_map_iff in Hr as (y & <- & _).
    rewrite length_map, length_upto. lia.
Qed.

Lemma cell_blurLevel (prev : list (list float)) (h w y x : Z) :
  0 <= y < h -> 0 <= x < w ->
  cell (blurLevel prev h w) y x = blur prev h w y x.
Proof.
  intros Hy Hx. unfold cell, blurLevel.
  rewrite (nth_indep _ [] (map (fun x => blur prev h w 0 x) (upto w)))
    by (rewrite length_map, length_upto; lia).
  rewrite (map_nth (fun y => map (fun x => blur prev h w y x) (upto w)) (upto h) 0).
  rewrite (nth_indep _ 0%float (blur prev h w (nth (Z.to_nat y) (upto h) 0) 0))
    by (rewrite length_map, length_upto; lia).
  rewrite (map_nth (fun x => blur prev h w _ x) (upto w) 0).
  now rewrite !nth_upto.
Qed.

Lemma convolve_blurLevel (prev : list (list float)) (h w : Z) :
  shape h w prev -> 2 <= h -> 2 <= w ->
  convolve prev h w = Val (blurLevel prev h w).
Proof.
  intros Hs Hh Hw. unfold convolve, blurLevel.
  apply mapM_pure. intros y Hy. apply In_upto in Hy.
  apply mapM_pure. intros x Hx. apply In_upto in Hx.
  now apply convolve_at_blur.
Qed.

Lemma levels_blurLevels (n : nat) (h w : Z) (prev : list (list float)) :
  shape h w prev -> 2 <= h -> 2 <= w ->
  levels n h w prev = Val (blurLevels n h w prev).
Proof.
  revert prev. induction n as [|n IH]; intros prev Hs Hh Hw; [reflexivity|].
  cbn. rewrite (convolve_blurLevel prev h w Hs Hh Hw). cbn.
  rewrite IH; [reflexivity | apply shape_blurLevel; lia | assumption | assumption].
Qed.

Lemma copy_into_id (w : Z) (row : list float) : len row = w -> copy_into w row = row.
Proof.
  unfold copy_into, len. intros <-.
  rewrite Nat2Z.id, firstn_all, Nat.sub_diag. apply app_nil_r.
Qed.

Lemma pyramid_blurLevels (m : list (list float)) (h w : Z) :
  shape h w m -> 2 <= h -> 2 <= w ->
  pyramid m = Val (m :: blurLevels 7 h w m).
Proof.
  intros Hs Hh Hw. unfold pyramid.
  rewrite (index_nth m 0 []) by (destruct Hs as [-> _]; lia). cbn [bind].
  assert (Hw0 : len (nth (Z.to_nat 0) m []) = w) by (apply (shape_cell_row h w); [assumption | lia]).
  rewrite Hw0. destruct Hs as [Hlen Hrows].
  assert (Hcopy : map (copy_into w) m = m).
  { rewrite <- (map_id m) at 2. apply map_ext_in. intros r Hr.
    apply copy_into_id. rewrite Forall_forall in Hrows. now apply Hrows. }
  rewrite Hcopy, Hlen.
  rewrite levels_blurLevels by (try split; assumption). reflexivity.
Qed.

Lemma upto_cons (n : Z) : 1 <= n -> exists t, upto n = 0 :: t.
Proof.
  intros H. unfold upto. destruct (Z.to_nat n) as [|k] eqn:Hk; [lia|].
  cbn. eexists. reflexivity.
Qed.

(** With a single row or a single column the very first tap, [i = j = -2] at
    [(0, 0)], is reflected to index [-1]. *)
Lemma convolve_at_thin (prev : list (list float)) (h w : Z) :
  shape h w prev -> 1 <= h -> 1 <= w -> h = 1 \/ w = 1 ->
  convolve_at prev h w 0 0 = Panic.
Proof.
  intros Hs Hh Hw Hthin. unfold convolve_at, taps. cbn [foldM].
  change (index lapKernel (-2 + 2)) with (Val (A := float) 0.05%float). cbn [bind].
  destruct (Z.eq_dec h 1) as [-> | Hh1].
  - change (reflect 1 (0 + -2)) with (-1).
    rewrite (index_out prev (-1)) by lia. reflexivity.
  - assert (Hw1 : w = 1) by lia. subst w.
    assert (Ry : 0 <= reflect h (0 + -2) < h) by (apply reflect_range; lia).
    rewrite (index_nth prev _ []) by (destruct Hs as [-> _]; exact Ry). cbn [bind].
    change (reflect 1 (0 + -2)) with (-1).
    rewrite (index_out _ (-1)) by lia. reflexivity.
Qed.

Lemma pyramid_thin (m : list (list float)) (h w : Z) :
  shape h w m -> 1 <= h -> 1 <= w -> h = 1 \/ w = 1 -> pyramid m = Panic.
Proof.
  intros Hs Hh Hw Hthin. unfold pyramid.
  rewrite (index_nth m 0 []) by (destruct Hs as [-> _]; lia). cbn [bind].
  assert (Hw0 : len (nth (Z.to_nat 0) m []) = w)
    by (apply (shape_cell_row h w); [assumption | lia]).
  rewrite Hw0.
  assert (Hcopy : map (copy_into w) m = m).
  { rewrite <- (map_id m) at 2. apply map_ext_in. intros r Hr.
    apply copy_into_id. destruct Hs as [_ Hrows].
    rewrite Forall_forall in Hrows. now apply Hrows. }
  rewrite Hcopy. destruct Hs as [Hlen Hrows]. rewrite Hlen.
  change (Z.to_nat (lapLevels - 1)) with 7%nat. cbn [levels].
  assert (Hc : convolve m h w = Panic).
  { unfold convolve. apply (mapM_Panic _ _ 0); [apply In_upto; lia|].
    apply (mapM_Panic _ _ 0); [apply In_upto; lia|].
    apply convolve_at_thin; [split|..]; assumption. }
  rewrite Hc. reflexivity.
Qed.

Lemma shape_blurLevels (n : nat) (h w : Z) (g : list (list float)) :
  0 <= h -> 0 <= w -> Forall (shape h w) (blurLevels n h w g).
Proof.
  intros Hh Hw. revert g. induction n as [|n IH]; intros g; cbn; constructor.
  - now apply shape_blurLevel.
  - apply IH.
Qed.

Lemma length_blurLevels (n : nat) (h w : Z) (g : list (list float)) :
  length (blurLevels n h w g) = n.
Proof. revert g. induction n as [|n IH]; intros g; cbn; [|rewrite IH]; reflexivity. Qed.

Lemma nth_blurLevels (n k : nat) (h w : Z) (g : list (list float)) :
  (k < n)%nat ->
  nth (S k) (g :: blurLevels n h w g) [] = blurLevel (nth k (g :: blurLevels n h w g) []) h w.
Proof.
  revert n g. induction k as [|k IH]; intros n g Hk.
  - destruct n; [lia|]. reflexivity.
  - destruct n; [lia|]. cbn [blurLevels].
    change (nth (S (S k)) (g :: ?a :: ?r) []) with (nth (S k) (a :: r) []).
    change (nth (S k) (g :: ?a :: ?r) []) with (nth k (a :: r) []).
    apply IH. lia.
Qed.

(** X15: on a map of at least two rows and two columns [pyramid] returns
    [lapLevels] levels of the size of the map: the map itself, and then the
    blur of the level before. *)
Lemma pyramid_spec (m : list (list float)) (h w : Z) :
  shape h w m -> 2 <= h -> 2 <= w ->
  exists p, pyramid m = Val p /\ len p = lapLevels /\ Forall (shape h w) p /\
    nth 0 p [] = m /\
    forall k, (k < 7)%nat -> forall y x, 0 <= y < h -> 0 <= x < w ->
      cell (nth (S k) p []) y x = blur (nth k p []) h w y x.
Proof.
  intros Hs Hh Hw. exists (m :: blurLevels 7 h w m).
  split; [now apply pyramid_blurLevels|].
  split; [unfold len; cbn [length]; rewrite length_blurLevels; reflexivity|].
  split; [constructor; [assumption | apply shape_blurLevels; lia]|].
  split; [reflexivity|].
  intros k Hk y x Hy Hx. rewrite nth_blurLevels by assumption.
  now apply cell_blurLevel.
Qed.

(** C10: on a map with at least one row and one column, the two-step
    reflection of [pyramid] sends every row index [y + j] and column index
    [x + i], for a pixel [(x, y)] and offsets [i], [j] in [-2, 2], into the
    map exactly when the map has at least two rows and two columns; and
    exactly then no access of the convolution is out of range, that is,
    [pyramid] returns. *)
Theorem pyramid_reflection_in_bounds (m : list (list float)) (h w : Z) :
  shape h w m -> 1 <= h -> 1 <= w ->
  ((2 <= h /\ 2 <= w) <->
   (forall y x i j, 0 <= y < h -> 0 <= x < w -> -2 <= i <= 2 -> -2 <= j <= 2 ->
      0 <= reflect h (y + j) < h /\ 0 <= reflect w (x + i) < w)) /\
  ((2 <= h /\ 2 <= w) <-> exists p, pyramid m = Val p).
Proof.
  intros Hs Hh Hw. split; split.
  - intros [Hh2 Hw2] y x i j Hy Hx Hi Hj.
    split; apply reflect_range; assumption.
  - intros H.
    destruct (Z.eq_dec h 1) as [-> | Hh1].
    + destruct (H 0 0 (-2) (-2)) as [Hy _]; try lia. cbn in Hy. lia.
    + destruct (Z.eq_dec w 1) as [-> | Hw1]; [|lia].
      destruct (H 0 0 (-2) (-2)) as [_ Hx]; try lia. cbn in Hx. lia.
  - intros [Hh2 Hw2]. exists (m :: blurLevels 7 h w m).
    apply pyramid_blurLevels; assumption.
  - intros (p & Hp).
    destruct (Z.eq_dec h 1) as [Hh1 | Hh1];
      [rewrite (pyramid_thin m h w) in Hp by (auto; lia); discriminate|].
    destruct (Z.eq_dec w 1) as [Hw1 | Hw1];
      [rewrite (pyramid_thin m h w) in Hp by (auto; lia); discriminate|].
    lia.
Qed.

Lemma pyramid_reflection_in_bounds_witness :
  ((2 <= 2 /\ 2 <= 2) <->
   (forall y x i j, 0 <= y < 2 -> 0 <= x < 2 -> -2 <= i <= 2 -> -2 <= j <= 2 ->
      0 <= reflect 2 (y + j) < 2 /\ 0 <= reflect 2 (x + i) < 2)) /\
  ((2 <= 2 /\ 2 <= 2) <-> exists p, pyramid [[1; 2]; [3; 4]]%float = Val p).
Proof.
  apply (pyramid_reflection_in_bounds [[1; 2]; [3; 4]]%float 2 2);
    [split; [reflexivity | repeat constructor] | lia | lia].
Defined.

(** C3 at the map of a single cell: [pyramid] panics, and returns no level. *)
Theorem pyramid_single_cell_panics (v : float) : pyramid [[v]] = Panic.
Proof.
  apply (pyramid_thin [[v]] 1 1); try lia.
  split; [reflexivity | repeat constructor].
Qed.

(** ** The adaptation index *)

Lemma pow2_step (a : Z) : 0 <= a < 7 -> (pow2 a * 2)%float = pow2 (a + 1).
Proof.
  intros H.
  assert (E : a = 0 \/ a = 1 \/ a = 2 \/ a = 3 \/ a = 4 \/ a = 5 \/ a = 6) by lia.
  destruct E as [->|[->|[->|[->|[->|[->| ->]]]]]]; reflexivity.
Qed.

Lemma ai_loop_spec (o : float) (fuel : nat) (a : Z) :
  0 <= a < 7 -> 7 - a <= Z.of_nat fuel ->
  let r := ai_loop fuel (pow2 a) o a in
  a <= r <= 7 /\
  (forall k, a <= k < r -> (o <? pow2 k)%float = false) /\
  (r < 7 -> (o <? pow2 r)%float = true).
Proof.
  revert a. induction fuel as [|fuel IH]; intros a Ha Hf; [lia|].
  cbn [ai_loop]. destruct (o <? pow2 a)%float eqn:Hlt; cbn [negb].
  - split; [lia|]. split; [intros k Hk; lia | intros _; exact Hlt].
  - change (lapLevels - 1) with 7.
    destruct (Z.eqb_spec (a + 1) 7) as [E | E].
    + split; [lia|]. split; [|lia].
      intros k Hk. assert (k = a) as -> by lia. exact Hlt.
    + rewrite pow2_step by exact Ha.
      destruct (IH (a + 1)) as (Hr & Hbelow & Hat); [lia | lia |].
      split; [lia|]. split; [|exact Hat].
      intros k Hk. destruct (Z.eq_dec k a) as [-> | Hne]; [exact Hlt|].
      apply Hbelow. lia.
Qed.

(** The loop leaves by [break] or by its condition within seven rounds:
    more fuel changes nothing. *)
Lemma ai_loop_fuel (o : float) (fuel : nat) (n : float) (a : Z) :
  0 <= a < 7 -> 7 - a <= Z.of_nat fuel ->
  ai_loop fuel n o a = ai_loop (Z.to_nat (7 - a)) n o a.
Proof.
  revert n a. induction fuel as [|fuel IH]; intros n a Ha Hf; [lia|].
  replace (Z.to_nat (7 - a)) with (S (Z.to_nat (7 - (a + 1)))) by lia.
  cbn [ai_loop]. destruct (negb (o <? n)%float); [|reflexivity].
  change (lapLevels - 1) with 7.
  destruct (Z.eqb_spec (a + 1) 7) as [E | E]; [reflexivity|].
  apply IH; lia.
Qed.

(** C6: [NewPerceptual] sets [odp] to [2 * tan(fov * 0.5 * Pi / 180) * 180 / Pi]
    and [ai] to the least [k >= 0] with [2^k > odp], capped at
    [lapLevels - 1]; [ai] is an index of the pyramid.  The loop that counts
    [ai] ends by itself: any fuel of seven rounds or more gives the same
    index. *)
Theorem NewPerceptual_adaptation_index (M : MathLib) (g l f c : float) (nc : bool) :
  let d := NewPerceptual M g l f c nc in
  odp d = (2 * Tan M (f * 0.5 * Pi / 180) * 180 / Pi)%float /\
  0 <= ai d < lapLevels /\
  (forall k, 0 <= k < ai d -> (odp d <? pow2 k)%float = false) /\
  (ai d < lapLevels - 1 -> (odp d <? pow2 (ai d))%float = true) /\
  (forall fuel, (7 <= fuel)%nat -> ai_loop fuel 1 (odp d) 0 = ai d).
Proof.
  cbv zeta. unfold NewPerceptual. cbn [odp ai].
  set (o := (2 * Tan M (f * 0.5 * Pi / 180) * 180 / Pi)%float).
  change (Z.to_nat (lapLevels - 1)) with 7%nat.
  destruct (ai_loop_spec o 7 0) as (Hr & Hbelow & Hat); [lia | lia |].
  change (pow2 0) with 1%float in Hr, Hbelow, Hat.
  split; [reflexivity|]. split; [unfold lapLevels; lia|].
  split; [exact Hbelow|]. split; [exact Hat|].
  intros fuel Hfuel. apply (ai_loop_fuel o fuel 1%float 0); lia.
Qed.

(** ** The difference image *)

Lemma length_update {A : Type} (s : list A) (i : nat) (v : A) :
  length (update s i v) = length s.
Proof.
  revert i. induction s as [|a s IH]; intros [|i]; cbn; try reflexivity.
  now rewrite IH.
Qed.

Lemma nth_update {A : Type} (s : list A) (i j : nat) (v d : A) :
  (i < length s)%nat ->
  nth j (update s i v) d = if (j =? i)%nat then v else nth j s d.
Proof.
  revert i j. induction s as [|a s IH]; intros i j Hi; [cbn in Hi; lia|].
  destruct i as [|i], j as [|j]; cbn; try reflexivity.
  apply IH. cbn in Hi. lia.
Qed.

Lemma PRect_Set (p : NRGBAImage) (x y : Z) (c : NRGBA) :
  PRect (NRGBA_Set p x y c) = PRect p.
Proof. unfold NRGBA_Set. destruct (PointIn x y (PRect p)); reflexivity. Qed.

Lemma PointIn_spec (x y : Z) (r : Rectangle) :
  PointIn x y r = true <-> X (Min r) <= x < X (Max_ r) /\ Y (Min r) <= y < Y (Max_ r).
Proof. unfold PointIn. rewrite !andb_true_iff. lia. Qed.

Lemma wfImage_Set (p : NRGBAImage) (x y : Z) (c : NRGBA) :
  wfImage p -> wfImage (NRGBA_Set p x y c).
Proof.
  intros [Hl Hr]. unfold wfImage. rewrite PRect_Set. unfold NRGBA_Set.
  destruct (PointIn x y (PRect p)) eqn:Hin; [|split; assumption].
  cbn [Pix]. apply PointIn_spec in Hin.
  assert (Hy : (Z.to_nat (y - Y (Min (PRect p))) < length (Pix p))%nat)
    by (unfold len, Dy in Hl; lia).
  split.
  - unfold len in *. now rewrite length_update.
  - rewrite Forall_forall in *. intros r Hr'.
    apply In_nth with (d := []) in Hr' as (k & Hk & <-).
    rewrite length_update in Hk. rewrite nth_update by exact Hy.
    destruct (k =? _)%nat.
    + unfold len. rewrite length_update. apply Hr. now apply nth_In.
    + apply Hr. now apply nth_In.
Qed.

Lemma NRGBA_At_Set (p : NRGBAImage) (x y x' y' : Z) (c : NRGBA) :
  wfImage p ->
  NRGBA_At (NRGBA_Set p x y c) x' y' =
  if PointIn x y (PRect p) && (x' =? x) && (y' =? y) then c else NRGBA_At p x' y'.
Proof.
  intros [Hl Hr]. unfold NRGBA_At. rewrite PRect_Set. unfold NRGBA_Set.
  destruct (PointIn x y (PRect p)) eqn:Hin; [|reflexivity].
  cbn [Pix andb]. apply PointIn_spec in Hin.
  assert (Hy : (Z.to_nat (y - Y (Min (PRect p))) < length (Pix p))%nat)
    by (unfold len, Dy in Hl; lia).
  assert (Hx : (Z.to_nat (x - X (Min (PRect p)))
                < length (nth (Z.to_nat (y - Y (Min (PRect p)))) (Pix p) []))%nat).
  { rewrite Forall_forall in Hr.
    specialize (Hr _ (nth_In _ [] Hy)). unfold len, Dx in Hr. lia. }
  destruct (PointIn x' y' (PRect p)) eqn:Hin'.
  - apply PointIn_spec in Hin'. rewrite nth_update by exact Hy.
    destruct (Z.eqb_spec y' y) as [-> | Hne].
    + rewrite Nat.eqb_refl, nth_update by exact Hx.
      destruct (Z.eqb_spec x' x) as [-> | Hnx].
      * now rewrite Nat.eqb_refl.
      * destruct (Nat.eqb_spec (Z.to_nat (x' - X (Min (PRect p))))
                               (Z.to_nat (x - X (Min (PRect p))))); [lia | reflexivity].
    + rewrite andb_false_r.
      destruct (Nat.eqb_spec (Z.to_nat (y' - Y (Min (PRect p))))
                             (Z.to_nat (y - Y (Min (PRect p))))); [lia | reflexivity].
  - destruct ((x' =? x) && (y' =? y)) eqn:E; [|reflexivity].
    apply andb_true_iff in E as [Ex Ey]. apply Z.eqb_eq in Ex, Ey. subst x' y'.
    assert (PointIn x y (PRect p) = true) by (now apply PointIn_spec). congruence.
Qed.

Lemma Rect_origin (w h : Z) :
  0 <= w -> 0 <= h ->
  Rect 0 0 w h = {| Min := {| X := 0; Y := 0 |}; Max_ := {| X := w; Y := h |} |}.
Proof.
  intros Hw Hh. unfold Rect.
  destruct (Z.ltb_spec w 0); [lia|]. destruct (Z.ltb_spec h 0); [lia|]. reflexivity.
Qed.

Lemma wfImage_New (w h : Z) : 0 <= w -> 0 <= h -> wfImage (NewNRGBA (Rect 0 0 w h)).
Proof.
  intros Hw Hh. unfold wfImage, NewNRGBA. cbn [Pix PRect].
  rewrite Rect_origin by assumption. unfold Dx, Dy, shape, len. cbn.
  rewrite !Z.sub_0_r. split.
  - rewrite repeat_length. lia.
  - apply Forall_forall. intros r Hr. apply repeat_spec in Hr. subst r.
    rewrite repeat_length. lia.
Qed.

Lemma NRGBA_At_New (r : Rectangle) (x y : Z) : NRGBA_At (NewNRGBA r) x y = zeroColor.
Proof.
  unfold NRGBA_At, NewNRGBA. cbn [Pix PRect].
  destruct (PointIn x y r); [|reflexivity].
  set (i := Z.to_nat (y - _)). set (j := Z.to_nat (x - _)).
  change {| nR := 0; nG := 0; nB := 0; nA := 0 |} with zeroColor.
  destruct (Nat.lt_ge_cases i (Z.to_nat (Dy r))) as [Hi | Hi].
  - rewrite (nth_indep _ [] (repeat zeroColor (Z.to_nat (Dx r))))
      by (rewrite repeat_length; exact Hi).
    rewrite nth_repeat. apply nth_repeat.
  - rewrite (nth_overflow (repeat _ _)) by (rewrite repeat_length; exact Hi).
    now destruct j.
Qed.

(** ** The pixel loop *)

Lemma In_pixels (w h x y : Z) : In (x, y) (pixels w h) <-> 0 <= x < w /\ 0 <= y < h.
Proof.
  unfold pixels. rewrite in_flat_map. split.
  - intros (y' & Hy & Hin). apply in_map_iff in Hin as (x' & [= <- <-] & Hx).
    apply In_upto in Hx, Hy. lia.
  - intros [Hx Hy]. exists y. split; [now apply In_upto|].
    apply in_map_iff. exists x. split; [reflexivity | now apply In_upto].
Qed.

Lemma length_pixels (w h : Z) : 0 <= w -> 0 <= h -> len (pixels w h) = w * h.
Proof.
  intros Hw Hh. unfold len, pixels.
  assert (G : forall l : list Z,
            length (flat_map (fun y => map (fun x => (x, y)) (upto w)) l)
            = (length l * Z.to_nat w)%nat).
  { induction l as [|y l IH]; [reflexivity|].
    cbn [flat_map]. rewrite length_app, IH, length_map, length_upto. cbn. lia. }
  rewrite G, length_upto. lia.
Qed.

Lemma fold_left_pixels {S : Type} (F : S -> Z * Z -> S) (w h : Z) (s : S) :
  fold_left (fun s y => fold_left (fun s x => F s (x, y)) (upto w) s) (upto h) s
  = fold_left F (pixels w h) s.
Proof.
  unfold pixels. generalize (upto h) as l. intros l. revert s.
  induction l as [|y l IH]; intros s; [reflexivity|].
  cbn [fold_left flat_map]. rewrite fold_left_app, IH. f_equal.
  generalize (upto w) as r. intros r. revert s.
  induction r as [|x r IHr]; intros s; [reflexivity|]. cbn. apply IHr.
Qed.

Lemma paint_spec (pass : Z -> Z -> bool) (l : list (Z * Z)) (st : NRGBAImage * Z) :
  wfImage (fst st) ->
  let st' := fold_left (paint pass) l st in
  wfImage (fst st') /\ PRect (fst st') = PRect (fst st) /\
  (forall x y, In (x, y) l -> PointIn x y (PRect (fst st)) = true ->
     NRGBA_At (fst st') x y = if pass x y then passColor else failColor) /\
  (forall x y, ~ In (x, y) l -> NRGBA_At (fst st') x y = NRGBA_At (fst st) x y) /\
  snd st' = snd st + len (filter (fun xy => negb (pass (fst xy) (snd xy))) l).
Proof.
  revert st. induction l as [|[x y] l IH]; intros st Hwf.
  - cbn [fold_left]. split; [exact Hwf|]. split; [reflexivity|].
    split; [intros x y []|]. split; [reflexivity|]. unfold len. cbn. lia.
  - cbn [fold_left]. set (st1 := paint pass st (x, y)).
    assert (Hwf1 : wfImage (fst st1)) by (apply wfImage_Set, Hwf).
    assert (HR1 : PRect (fst st1) = PRect (fst st)) by apply PRect_Set.
    destruct (IH st1 Hwf1) as (Hw & HR & Hin & Hout & Hn).
    split; [exact Hw|]. split; [congruence|]. split; [|split].
    + intros x' y' Hl HP.
      destruct (in_dec (fun a b : Z * Z =>
                  ltac:(decide equality; apply Z.eq_dec) : {a = b} + {a <> b})
                  (x', y') l) as [Hl' | Hl'].
      * apply Hin; [exact Hl' | congruence].
      * rewrite Hout by exact Hl'. destruct Hl as [[= <- <-] | Hl]; [|contradiction].
        cbn [st1 paint fst]. rewrite NRGBA_At_Set by exact Hwf.
        now rewrite HP, !Z.eqb_refl.
    + intros x' y' Hl. rewrite Hout by (intros H; apply Hl; now right).
      cbn [st1 paint fst]. rewrite NRGBA_At_Set by exact Hwf.
      destruct (Z.eqb_spec x' x) as [-> | Hx]; [|now rewrite andb_false_r].
      destruct (Z.eqb_spec y' y) as [-> | Hy]; [|now rewrite andb_false_r].
      exfalso. apply Hl. now left.
    + rewrite Hn. cbn [st1 paint snd filter fst]. unfold len.
      destruct (pass x y); cbn [negb length]; lia.
Qed.

Lemma pixel_loop (M : MathLib) (d : perceptual) (aLAB bLAB : list (list labColor))
    (aLap bLap : list (list (list float))) (cpd freq : list float)
    (pass : Z -> Z -> bool) (w h : Z) (st : NRGBAImage * Z) :
  (forall x y, 0 <= x < w -> 0 <= y < h ->
     pixelPass M d aLAB bLAB aLap bLap cpd freq x y = Val (pass x y)) ->
  foldM (fun st y => foldM (pixelStep M d aLAB bLAB aLap bLap cpd freq y) (upto w) st)
        (upto h) st
  = Val (fold_left (paint pass) (pixels w h) st).
Proof.
  intros H. rewrite <- fold_left_pixels.
  apply foldM_pure. intros s y Hy. apply foldM_pure. intros [di n] x Hx.
  apply In_upto in Hx, Hy. unfold pixelStep. rewrite H by assumption. cbn [bind].
  unfold paint. cbn [fst snd]. destruct (pass x y); reflexivity.
Qed.

Lemma bind_Val_inv {A B : Type} (c : Go A) (k : A -> Go B) (b : B) :
  bind c k = Val b -> exists a, c = Val a /\ k a = Val b.
Proof. destruct c as [a|]; [eauto | discriminate]. Qed.

Lemma foldM_Val {S A : Type} (f : S -> A -> Go S) (l : list A) :
  (forall s a, In a l -> exists s', f s a = Val s') ->
  forall s, exists s', foldM f l s = Val s'.
Proof.
  induction l as [|a l IH]; intros H s; [now exists s|].
  destruct (H s a (or_introl eq_refl)) as (s1 & H1). cbn. rewrite H1. cbn.
  apply IH. intros; apply H; now right.
Qed.

Lemma Forall2_length_len {A B : Type} (R : A -> B -> Prop) (l : list A) (l' : list B) :
  Forall2 R l l' -> len l' = len l.
Proof. intros H. unfold len. now rewrite (Forall2_length H). Qed.

Lemma at3_cell (p : list (list (list float))) (h w l y x : Z) :
  levelsShape h w p -> 0 <= l < lapLevels -> 0 <= y < h -> 0 <= x < w ->
  at3 p l y x = Val (cell (nth (Z.to_nat l) p []) y x).
Proof.
  intros [Hl Hs] Hlv Hy Hx. unfold at3, cell.
  rewrite (index_nth p l []) by lia. cbn [bind].
  assert (Hsl : shape h w (nth (Z.to_nat l) p [])).
  { rewrite Forall_forall in Hs. apply Hs, nth_In. unfold len in Hl. lia. }
  rewrite (index_nth _ y []) by (destruct Hsl as [-> _]; exact Hy). cbn [bind].
  apply index_nth. now rewrite (shape_cell_row h w _ y Hsl Hy).
Qed.

Lemma levelContrast_Val (M : MathLib) (aLap bLap : list (list (list float)))
    (cpd : list float) (adapt : float) (h w x y i : Z) :
  levelsShape h w aLap -> levelsShape h w bLap -> lapLevels - 2 <= len cpd ->
  0 <= x < w -> 0 <= y < h -> 0 <= i < lapLevels - 2 ->
  exists c, levelContrast M aLap bLap cpd adapt x y i = Val c.
Proof.
  intros Ha Hb Hc Hx Hy Hi. unfold levelContrast, lapLevels in *.
  rewrite !(at3_cell aLap h w), !(at3_cell bLap h w) by (unfold lapLevels; assumption || lia).
  cbn [bind]. rewrite (index_nth cpd i 0%float) by lia. cbn [bind]. eauto.
Qed.

Lemma pixelFactor_Val (cm : list (float * float)) (freq : list float) :
  lapLevels - 2 <= len cm -> lapLevels - 2 <= len freq ->
  exists f, pixelFactor cm freq = Val (clampFactor f).
Proof.
  intros Hc Hf. unfold pixelFactor.
  match goal with
  | |- context [foldM ?f ?l ?s0] => assert (Hr : exists r, foldM f l s0 = Val r)
  end.
  { apply foldM_Val. intros s i Hi. apply In_upto in Hi.
    rewrite (index_nth cm i (0%float, 0%float)) by lia. cbn [bind].
    rewrite (index_nth freq i 0%float) by lia. cbn [bind]. eauto. }
  destruct Hr as (r & Hr). rewrite Hr. cbn [bind]. eauto.
Qed.

Lemma pixelFactor_inv (cm : list (float * float)) (freq : list float) (f : float) :
  pixelFactor cm freq = Val f -> exists f', f = clampFactor f'.
Proof.
  unfold pixelFactor. intros H. apply bind_Val_inv in H as (f' & _ & [= <-]). eauto.
Qed.

Lemma pixelPass_Val (M : MathLib) (d : perceptual) (aLAB bLAB : list (list labColor))
    (aLap bLap : list (list (list float))) (cpd freq : list float) (h w x y : Z) :
  levelsShape h w aLap -> levelsShape h w bLap ->
  shape h w aLAB -> shape h w bLAB ->
  lapLevels - 2 <= len cpd -> lapLevels - 2 <= len freq ->
  0 <= ai d < lapLevels -> 0 <= x < w -> 0 <= y < h ->
  exists p, pixelPass M d aLAB bLAB aLap bLap cpd freq x y = Val p.
Proof.
  intros Ha Hb HA HB Hc Hf Hai Hx Hy. unfold pixelPass, pixelAdapt.
  rewrite (at3_cell aLap h w), (at3_cell bLap h w) by assumption. cbn [bind].
  set (adapt := Max _ _).
  destruct (mapM_Val (levelContrast M aLap bLap cpd adapt x y) (upto (lapLevels - 2)))
    as (cm & Hcm & HF).
  { intros i Hi. apply In_upto in Hi. now apply (levelContrast_Val M aLap bLap cpd adapt h w). }
  rewrite Hcm. cbn [bind].
  apply Forall2_length_len in HF. unfold len in HF at 2. rewrite length_upto in HF.
  destruct (pixelFactor_Val cm freq) as (f & Hfac); [unfold lapLevels in *; lia | exact Hf |].
  rewrite Hfac. cbn [bind].
  rewrite (at3_cell aLap h w), (at3_cell bLap h w) by (unfold lapLevels; assumption || lia).
  cbn [bind].
  destruct (_ <? _)%float; [eauto|].
  destruct (negb (nocolor d)); [|eauto].
  destruct (index_Val aLAB y) as (ra & Hra & Hra'); [destruct HA as [-> _]; exact Hy|].
  destruct (index_Val bLAB y) as (rb & Hrb & Hrb'); [destruct HB as [-> _]; exact Hy|].
  assert (Hlra : len ra = w).
  { destruct HA as [_ HA]. rewrite Forall_forall in HA. apply HA.
    eapply nth_error_In; eassumption. }
  assert (Hlrb : len rb = w).
  { destruct HB as [_ HB]. rewrite Forall_forall in HB. apply HB.
    eapply nth_error_In; eassumption. }
  destruct (index_Val ra x) as (la & Hla & _); [lia|].
  destruct (index_Val rb x) as (lb & Hlb & _); [lia|].
  rewrite Hra. cbn [bind]. rewrite Hla. cbn [bind].
  rewrite Hrb. cbn [bind]. rewrite Hlb. cbn [bind].
  destruct (_ <? _)%float; eauto.
Qed.

(** ** [labLap] and the tables of [Compare] *)

Lemma convolve_blurLevel_0 (prev : list (list float)) (h : Z) :
  convolve prev h 0 = Val (blurLevel prev h 0).
Proof. unfold convolve, blurLevel. apply mapM_pure. intros y _. reflexivity. Qed.

Lemma levels_blurLevels_0 (n : nat) (h : Z) (prev : list (list float)) :
  levels n h 0 prev = Val (blurLevels n h 0 prev).
Proof.
  revert prev. induction n as [|n IH]; intros prev; [reflexivity|].
  cbn [levels blurLevels]. rewrite convolve_blurLevel_0. cbn [bind]. now rewrite IH.
Qed.

Lemma pyramid_okDims (m : list (list float)) (h w : Z) :
  shape h w m -> okDims h w -> pyramid m = Val (m :: blurLevels 7 h w m).
Proof.
  intros Hs [Hh [-> | [Hh2 Hw2]]]; [|now apply pyramid_blurLevels].
  unfold pyramid.
  rewrite (index_nth m 0 []) by (destruct Hs as [-> _]; lia). cbn [bind].
  rewrite (shape_cell_row h 0 m 0 Hs) by lia. destruct Hs as [Hlen Hrows].
  assert (Hcopy : map (copy_into 0) m = m).
  { rewrite <- (map_id m) at 2. apply map_ext_in. intros r Hr.
    apply copy_into_id. rewrite Forall_forall in Hrows. now apply Hrows. }
  rewrite Hcopy, Hlen. change (Z.to_nat (lapLevels - 1)) with 7%nat.
  now rewrite levels_blurLevels_0.
Qed.

Lemma levelsShape_blurLevels (m : list (list float)) (h w : Z) :
  shape h w m -> 0 <= h -> 0 <= w -> levelsShape h w (m :: blurLevels 7 h w m).
Proof.
  intros Hs Hh Hw. split.
  - unfold len. cbn [length]. now rewrite length_blurLevels.
  - constructor; [exact Hs | now apply shape_blurLevels].
Qed.

Lemma pyramid_not_okDims (m : list (list float)) (h w : Z) :
  shape h w m -> ~ okDims h w -> pyramid m = Panic.
Proof.
  intros Hs Hn.
  assert (Hh : 0 <= h) by (destruct Hs as [<- _]; unfold len; lia).
  destruct (Z.eq_dec h 0) as [-> | Hh0].
  - destruct Hs as [Hl _]. destruct m; [reflexivity | unfold len in Hl; cbn in Hl; lia].
  - assert (Hw : 0 <= w).
    { rewrite <- (shape_cell_row h w m 0 Hs) by lia. unfold len. lia. }
    apply (pyramid_thin m h w Hs); unfold okDims in Hn; lia.
Qed.

Lemma shape_grid {A : Type} (f : Z -> Z -> A) (h w : Z) :
  0 <= h -> 0 <= w -> shape h w (map (fun y => map (fun x => f x y) (upto w)) (upto h)).
Proof.
  intros Hh Hw. unfold shape, len. split.
  - rewrite length_map, length_upto. lia.
  - apply Forall_forall. intros r Hr. apply in_map_iff in Hr as (y & <- & _).
    rewrite length_map, length_upto. lia.
Qed.

Lemma labLap_grids (M : MathLib) (m : Image) (g l : float) :
  0 <= Dy (Bounds m) -> 0 <= Dx (Bounds m) ->
  labLap M m g l = (p <- pyramid (lumGrid M m g l) ;; Val (labGrid M m g, p)).
Proof.
  intros Hh Hw. unfold labLap, makeslice.
  destruct (Z.ltb_spec (Dy (Bounds m)) 0); [lia|]. cbn [bind].
  destruct (Z.ltb_spec (Dx (Bounds m)) 0); [lia|]. cbn [bind].
  rewrite (mapM_pure _ (fun y => map (fun x =>
             let '(cx, cy, cz) := xyz M (At m x y) g in
             (lab M cx cy cz, (cy * l)%float)) (upto (Dx (Bounds m)))))
    by reflexivity.
  cbn [bind]. rewrite !map_map.
  assert (E1 : forall y, map fst (map (fun x =>
             let '(cx, cy, cz) := xyz M (At m x y) g in
             (lab M cx cy cz, (cy * l)%float)) (upto (Dx (Bounds m))))
           = map (fun x => let '(cx, cy, cz) := xyz M (At m x y) g in lab M cx cy cz)
                 (upto (Dx (Bounds m)))).
  { intros y. rewrite map_map. apply map_ext. intros x.
    destruct (xyz M (At m x y) g) as [[cx cy] cz]. reflexivity. }
  assert (E2 : forall y, map snd (map (fun x =>
             let '(cx, cy, cz) := xyz M (At m x y) g in
             (lab M cx cy cz, (cy * l)%float)) (upto (Dx (Bounds m))))
           = map (fun x => let '(cx, cy, cz) := xyz M (At m x y) g in (cy * l)%float)
                 (upto (Dx (Bounds m)))).
  { intros y. rewrite map_map. apply map_ext. intros x.
    destruct (xyz M (At m x y) g) as [[cx cy] cz]. reflexivity. }
  rewrite (map_ext _ _ E1), (map_ext _ _ E2). reflexivity.
Qed.

Lemma labLap_Val (M : MathLib) (m : Image) (g l : float) :
  okDims (Dy (Bounds m)) (Dx (Bounds m)) ->
  exists P, labLap M m g l = Val (labGrid M m g, P) /\
    levelsShape (Dy (Bounds m)) (Dx (Bounds m)) P /\
    shape (Dy (Bounds m)) (Dx (Bounds m)) (labGrid M m g) /\
    nth 0 P [] = lumGrid M m g l.
Proof.
  intros Hok.
  assert (Hh : 0 <= Dy (Bounds m)) by (unfold okDims in Hok; lia).
  assert (Hw : 0 <= Dx (Bounds m)) by (unfold okDims in Hok; lia).
  assert (Hs : shape (Dy (Bounds m)) (Dx (Bounds m)) (lumGrid M m g l))
    by (now apply shape_grid).
  rewrite labLap_grids by assumption.
  rewrite (pyramid_okDims _ _ _ Hs Hok). cbn [bind]. eexists. split; [reflexivity|].
  split; [now apply levelsShape_blurLevels|]. split; [now apply shape_grid | reflexivity].
Qed.

Lemma labLap_Panic (M : MathLib) (m : Image) (g l : float) :
  ~ okDims (Dy (Bounds m)) (Dx (Bounds m)) -> labLap M m g l = Panic.
Proof.
  intros Hn.
  destruct (Z.ltb_spec (Dy (Bounds m)) 0) as [Hh | Hh].
  { unfold labLap, makeslice. destruct (Z.ltb_spec (Dy (Bounds m)) 0); [reflexivity | lia]. }
  destruct (Z.ltb_spec (Dx (Bounds m)) 0) as [Hw | Hw].
  - unfold labLap, makeslice.
    destruct (Z.ltb_spec (Dy (Bounds m)) 0); [reflexivity|]. cbn [bind].
    destruct (Z.ltb_spec (Dx (Bounds m)) 0); [|lia]. cbn [bind].
    destruct (Z.eq_dec (Dy (Bounds m)) 0) as [E | E].
    + rewrite E. reflexivity.
    + rewrite (mapM_Panic _ _ 0); [reflexivity | apply In_upto; lia | reflexivity].
  - rewrite labLap_grids by assumption.
    rewrite (pyramid_not_okDims _ (Dy (Bounds m)) (Dx (Bounds m)));
      [reflexivity | now apply shape_grid | exact Hn].
Qed.

Lemma length_halvings (n : nat) (c : float) : length (halvings n c) = n.
Proof. revert c. induction n as [|n IH]; intros c; cbn; [|rewrite IH]; reflexivity. Qed.

Lemma freqTable_Val (M : MathLib) (cpd : list float) :
  lapLevels - 2 <= len cpd ->
  exists freq, freqTable M cpd = Val freq /\ len freq = lapLevels - 2.
Proof.
  intros Hc. unfold freqTable.
  rewrite (mapM_pure _ (fun i => (csf M 3.248 100 / csf M (nth (Z.to_nat i) cpd 0) 100)%float)).
  - eexists. split; [reflexivity|]. unfold len. rewrite length_map, length_upto. reflexivity.
  - intros i Hi. apply In_upto in Hi. rewrite (index_nth cpd i 0%float) by lia. reflexivity.
Qed.

(** ** [Compare] *)

Lemma Compare_mismatch (M : MathLib) (d : perceptual) (a b : Image) :
  Dx (Bounds a) <> Dx (Bounds b) \/ Dy (Bounds a) <> Dy (Bounds b) ->
  Compare M d a b = Val (None, -1, Some ErrSize).
Proof.
  intros H. unfold Compare.
  destruct (Z.eqb_spec (Dx (Bounds a)) (Dx (Bounds b)));
    destruct (Z.eqb_spec (Dy (Bounds a)) (Dy (Bounds b))); try reflexivity.
  lia.
Qed.

Lemma Compare_same_size (M : MathLib) (d : perceptual) (a b : Image) :
  Dx (Bounds a) = Dx (Bounds b) -> Dy (Bounds a) = Dy (Bounds b) ->
  Compare M d a b =
  ('(aLAB, aLap) <- labLap M a (gamma d) (lum d) ;;
   '(bLAB, bLap) <- labLap M b (gamma d) (lum d) ;;
   let cpd := halvings (Z.to_nat lapLevels)
                (0.5 * float64 (Dx (Bounds a)) / odp d)%float in
   freq <- freqTable M cpd ;;
   '(diff, npix) <- foldM (fun st y =>
                      foldM (pixelStep M d aLAB bLAB aLap bLap cpd freq y)
                            (upto (Dx (Bounds a))) st)
                    (upto (Dy (Bounds a)))
                    (NewNRGBA (Rect 0 0 (Dx (Bounds a)) (Dy (Bounds a))), 0) ;;
   Val (Some diff, npix, None)).
Proof.
  intros Hw Hh. unfold Compare. rewrite <- Hw, <- Hh, !Z.eqb_refl. reflexivity.
Qed.

Lemma Compare_Panic (M : MathLib) (d : perceptual) (a b : Image) :
  Dx (Bounds a) = Dx (Bounds b) -> Dy (Bounds a) = Dy (Bounds b) ->
  ~ okDims (Dy (Bounds a)) (Dx (Bounds a)) -> Compare M d a b = Panic.
Proof.
  intros Hw Hh Hn. rewrite Compare_same_size by assumption.
  now rewrite labLap_Panic.
Qed.

(** On sizes that [pyramid] accepts, and with an adaptation index inside
    the pyramid, [Compare] is the painting of the decisions [pass]. *)
Lemma Compare_paint (M : MathLib) (d : perceptual) (a b : Image) :
  Dx (Bounds a) = Dx (Bounds b) -> Dy (Bounds a) = Dy (Bounds b) ->
  okDims (Dy (Bounds a)) (Dx (Bounds a)) -> 0 <= ai d < lapLevels ->
  exists aLap bLap freq pass,
    labLap M a (gamma d) (lum d) = Val (labGrid M a (gamma d), aLap) /\
    labLap M b (gamma d) (lum d) = Val (labGrid M b (gamma d), bLap) /\
    freqTable M (halvings (Z.to_nat lapLevels)
                   (0.5 * float64 (Dx (Bounds a)) / odp d)%float) = Val freq /\
    (forall x y, 0 <= x < Dx (Bounds a) -> 0 <= y < Dy (Bounds a) ->
       pixelPass M d (labGrid M a (gamma d)) (labGrid M b (gamma d)) aLap bLap
         (halvings (Z.to_nat lapLevels) (0.5 * float64 (Dx (Bounds a)) / odp d)%float)
         freq x y = Val (pass x y)) /\
    Compare M d a b =
    Val (Some (fst (fold_left (paint pass) (pixels (Dx (Bounds a)) (Dy (Bounds a)))
                      (NewNRGBA (Rect 0 0 (Dx (Bounds a)) (Dy (Bounds a))), 0))),
         snd (fold_left (paint pass) (pixels (Dx (Bounds a)) (Dy (Bounds a)))
                (NewNRGBA (Rect 0 0 (Dx (Bounds a)) (Dy (Bounds a))), 0)),
         None).
Proof.
  intros Hw Hh Hok Hai.
  destruct (labLap_Val M a (gamma d) (lum d) Hok) as (aLap & Ha & HaS & HaL & _).
  assert (Hokb : okDims (Dy (Bounds b)) (Dx (Bounds b))) by (now rewrite <- Hw, <- Hh).
  destruct (labLap_Val M b (gamma d) (lum d) Hokb) as (bLap & Hb & HbS & HbL & _).
  rewrite <- Hw, <- Hh in HbS, HbL.
  set (cpd := halvings (Z.to_nat lapLevels) (0.5 * float64 (Dx (Bounds a)) / odp d)%float).
  assert (Hcpd : lapLevels - 2 <= len cpd).
  { unfold cpd, len. rewrite length_halvings. unfold lapLevels. lia. }
  destruct (freqTable_Val M cpd Hcpd) as (freq & Hfreq & Hlf).
  set (P := pixelPass M d (labGrid M a (gamma d)) (labGrid M b (gamma d)) aLap bLap cpd freq).
  exists aLap, bLap, freq,
    (fun x y => match P x y with Val p => p | Panic => true end).
  assert (HP : forall x y, 0 <= x < Dx (Bounds a) -> 0 <= y < Dy (Bounds a) ->
            P x y = Val (match P x y with Val p => p | Panic => true end)).
  { intros x y Hx Hy. unfold P.
    destruct (pixelPass_Val M d (labGrid M a (gamma d)) (labGrid M b (gamma d))
                aLap bLap cpd freq (Dy (Bounds a)) (Dx (Bounds a)) x y) as (p & Hp);
      try assumption; [lia|]. now rewrite Hp. }
  split; [exact Ha|]. split; [exact Hb|]. split; [exact Hfreq|]. split; [exact HP|].
  rewrite Compare_same_size by assumption. rewrite Ha, Hb. cbn [bind].
  fold cpd. rewrite Hfreq. cbn [bind].
  rewrite (pixel_loop M d _ _ aLap bLap cpd freq _ _ _ _ HP).
  cbn [bind]. destruct (fold_left _ _ _). reflexivity.
Qed.

Lemma NewPerceptual_ai (M : MathLib) (g l f c : float) (nc : bool) :
  0 <= ai (NewPerceptual M g l f c nc) < lapLevels.
Proof.
  unfold NewPerceptual. cbn [ai]. change (Z.to_nat (lapLevels - 1)) with 7%nat.
  destruct (ai_loop_spec (2 * Tan M (f * 0.5 * Pi / 180) * 180 / Pi)%float 7 0)
    as (Hr & _); [lia | lia |].
  change (pow2 0) with 1%float in Hr. unfold lapLevels. lia.
Qed.

Lemma NRGBA_eqb_fail (p : bool) :
  NRGBA_eqb (if p then passColor else failColor) failColor = negb p.
Proof. destruct p; reflexivity. Qed.

(** The difference image and the count that [paint] leaves. *)
Lemma paint_image (pass : Z -> Z -> bool) (w h : Z) :
  0 <= w -> 0 <= h ->
  let st := fold_left (paint pass) (pixels w h) (NewNRGBA (Rect 0 0 w h), 0) in
  PRect (fst st) = Rect 0 0 w h /\
  (forall x y, 0 <= x < w -> 0 <= y < h ->
     NRGBA_At (fst st) x y = if pass x y then passColor else failColor) /\
  snd st = len (filter (fun xy => negb (pass (fst xy) (snd xy))) (pixels w h)) /\
  snd st = countColor (fst st) failColor w h /\
  0 <= snd st <= w * h.
Proof.
  intros Hw Hh.
  destruct (paint_spec pass (pixels w h) (NewNRGBA (Rect 0 0 w h), 0))
    as (Hwf & HR & Hin & _ & Hn); [now apply wfImage_New|].
  cbn [fst snd] in *. cbv zeta.
  set (st := fold_left _ _ _) in *.
  assert (HAt : forall x y, 0 <= x < w -> 0 <= y < h ->
            NRGBA_At (fst st) x y = if pass x y then passColor else failColor).
  { intros x y Hx Hy. apply Hin; [now apply In_pixels|].
    unfold NewNRGBA. cbn [PRect]. rewrite Rect_origin by assumption.
    apply PointIn_spec. cbn. lia. }
  split; [exact HR|]. split; [exact HAt|]. split; [lia|]. split.
  - rewrite Hn, Z.add_0_l. unfold countColor. f_equal. apply filter_ext_in.
    intros [x y] Hxy. apply In_pixels in Hxy as [Hx Hy]. cbn [fst snd].
    now rewrite HAt, NRGBA_eqb_fail.
  - rewrite Hn, Z.add_0_l. rewrite <- (length_pixels w h) by assumption.
    unfold len. pose proof (filter_length_le (fun xy => negb (pass (fst xy) (snd xy)))
                              (pixels w h)). lia.
Qed.

(** X1: [Compare] reports [ErrSize], with no image and the count [-1],
    exactly when the widths or the heights of the two images differ, whatever
    the images hold; and whatever else it returns carries an image and no
    error. *)
Theorem Compare_size_error (M : MathLib) (d : perceptual) (a b : Image) :
  (Compare M d a b = Val (None, -1, Some ErrSize) <->
   (Dx (Bounds a) <> Dx (Bounds b) \/ Dy (Bounds a) <> Dy (Bounds b))) /\
  (forall r, Compare M d a b = Val r ->
     r = (None, -1, Some ErrSize) \/ exists diff n, r = (Some diff, n, None)).
Proof.
  assert (G : forall r, Compare M d a b = Val r ->
            Dx (Bounds a) = Dx (Bounds b) -> Dy (Bounds a) = Dy (Bounds b) ->
            exists diff n, r = (Some diff, n, None)).
  { intros r Hr Hw Hh. rewrite Compare_same_size in Hr by assumption.
    apply bind_Val_inv in Hr as ([aLAB aLap] & _ & Hr).
    apply bind_Val_inv in Hr as ([bLAB bLap] & _ & Hr). cbv zeta in Hr.
    apply bind_Val_inv in Hr as (freq & _ & Hr).
    apply bind_Val_inv in Hr as ([diff n] & _ & Hr).
    injection Hr as <-. eauto. }
  split; [split|].
  - intros Hr.
    destruct (Z.eq_dec (Dx (Bounds a)) (Dx (Bounds b))) as [Hw | Hw]; [|now left].
    destruct (Z.eq_dec (Dy (Bounds a)) (Dy (Bounds b))) as [Hh | Hh]; [|now right].
    destruct (G _ Hr Hw Hh) as (diff & n & [=]).
  - apply Compare_mismatch.
  - intros r Hr.
    destruct (Z.eq_dec (Dx (Bounds a)) (Dx (Bounds b))) as [Hw | Hw];
      [|rewrite Compare_mismatch in Hr by (now left); injection Hr as <-; now left].
    destruct (Z.eq_dec (Dy (Bounds a)) (Dy (Bounds b))) as [Hh | Hh];
      [|rewrite Compare_mismatch in Hr by (now right); injection Hr as <-; now left].
    right. now apply G.
Qed.

(** X2: a comparator built by [NewPerceptual] returns from [Compare] exactly
    when the sizes differ (the [ErrSize] result), or the images have at least
    one row and no column, or at least two rows and two columns.  On every
    other pair of images of equal sizes (no row, a negative size, a single
    row or a single column) it panics. *)
Theorem Compare_returns_iff (M : MathLib) (g l f c : float) (nc : bool) (a b : Image) :
  (exists r, Compare M (NewPerceptual M g l f c nc) a b = Val r) <->
  (Dx (Bounds a) <> Dx (Bounds b) \/ Dy (Bounds a) <> Dy (Bounds b) \/
   (1 <= Dy (Bounds a) /\ Dx (Bounds a) = 0) \/
   (2 <= Dy (Bounds a) /\ 2 <= Dx (Bounds a))).
Proof.
  split.
  - intros (r & Hr).
    destruct (Z.eq_dec (Dx (Bounds a)) (Dx (Bounds b))) as [Hw | Hw]; [|now left].
    destruct (Z.eq_dec (Dy (Bounds a)) (Dy (Bounds b))) as [Hh | Hh]; [|now right; left].
    right. right.
    destruct (Z_le_gt_dec 1 (Dy (Bounds a))) as [H1 | H1];
      [destruct (Z.eq_dec (Dx (Bounds a)) 0) as [H0 | H0]; [now left|];
       destruct (Z_le_gt_dec 2 (Dy (Bounds a))) as [H2 | H2];
         [destruct (Z_le_gt_dec 2 (Dx (Bounds a))) as [H3 | H3]; [now right|] |] |];
      rewrite Compare_Panic in Hr by (assumption || (unfold okDims; lia));
      discriminate.
  - intros H.
    destruct (Z.eq_dec (Dx (Bounds a)) (Dx (Bounds b))) as [Hw | Hw];
      [|rewrite Compare_mismatch by (now left); eauto].
    destruct (Z.eq_dec (Dy (Bounds a)) (Dy (Bounds b))) as [Hh | Hh];
      [|rewrite Compare_mismatch by (now right); eauto].
    destruct (Compare_paint M (NewPerceptual M g l f c nc) a b Hw Hh)
      as (aLap & bLap & freq & pass & _ & _ & _ & _ & HC);
      [unfold okDims; lia | apply NewPerceptual_ai |].
    rewrite HC. eauto.
Qed.

(** X3: on two images of the same size, of at least two rows and two
    columns, a comparator built by [NewPerceptual] returns a difference image
    on the rectangle [(0, 0) - (w, h)] in which every pixel is opaque black or
    opaque red, and the count it returns is the number of red pixels, between
    [0] and [w * h]. *)
Theorem Compare_diff_image (M : MathLib) (g l f c : float) (nc : bool)
    (a b : Image) (w h : Z) :
  Dx (Bounds a) = w -> Dy (Bounds a) = h -> Dx (Bounds b) = w -> Dy (Bounds b) = h ->
  2 <= w -> 2 <= h ->
  exists diff n,
    Compare M (NewPerceptual M g l f c nc) a b = Val (Some diff, n, None) /\
    PRect diff = Rect 0 0 w h /\
    (forall x y, 0 <= x < w -> 0 <= y < h ->
       NRGBA_At diff x y = passColor \/ NRGBA_At diff x y = failColor) /\
    n = countColor diff failColor w h /\
    0 <= n <= w * h.
Proof.
  intros Hwa Hha Hwb Hhb Hw Hh.
  destruct (Compare_paint M (NewPerceptual M g l f c nc) a b)
    as (aLap & bLap & freq & pass & _ & _ & _ & _ & HC);
    [congruence | congruence | unfold okDims; lia | apply NewPerceptual_ai |].
  rewrite Hwa, Hha in HC.
  destruct (paint_image pass w h) as (HR & HAt & _ & Hcount & Hn); [lia | lia |].
  eexists. eexists. split; [exact HC|]. split; [exact HR|].
  split; [|split; assumption].
  intros x y Hx Hy. rewrite HAt by assumption. destruct (pass x y); auto.
Qed.

Lemma Compare_diff_image_witness :
  exists diff n,
    Compare exampleMath (NewPerceptual exampleMath 2.2 100 45 1 false)
      (uniformImage 3 2 grey) (uniformImage 3 2 black) = Val (Some diff, n, None) /\
    PRect diff = Rect 0 0 3 2 /\
    (forall x y, 0 <= x < 3 -> 0 <= y < 2 ->
       NRGBA_At diff x y = passColor \/ NRGBA_At diff x y = failColor) /\
    n = countColor diff failColor 3 2 /\
    0 <= n <= 3 * 2.
Proof.
  apply (Compare_diff_image exampleMath 2.2 100 45 1 false
           (uniformImage 3 2 grey) (uniformImage 3 2 black) 3 2);
    try reflexivity; lia.
Defined.

(** ** Exchanging the two images *)

Lemma pixelAdapt_sym (d : perceptual) (aLap bLap : list (list (list float))) (x y : Z) :
  pixelAdapt d aLap bLap x y = pixelAdapt d bLap aLap x y.
Proof.
  unfold pixelAdapt.
  destruct (at3 aLap (ai d) y x) as [u|], (at3 bLap (ai d) y x) as [v|];
    cbn [bind]; try reflexivity.
  now rewrite IEEE.add_comm.
Qed.

Lemma levelContrast_sym (M : MathLib) (aLap bLap : list (list (list float)))
    (cpd : list float) (adapt : float) (x y i : Z) :
  levelContrast M aLap bLap cpd adapt x y i = levelContrast M bLap aLap cpd adapt x y i.
Proof.
  unfold levelContrast.
  destruct (at3 aLap i y x) as [a0|], (at3 aLap (i + 1) y x) as [a1|],
    (at3 bLap i y x) as [b0|], (at3 bLap (i + 1) y x) as [b1|],
    (at3 aLap (i + 2) y x) as [a2|], (at3 bLap (i + 2) y x) as [b2|];
    cbn [bind]; try reflexivity.
  now rewrite (IEEE.Max_comm (Abs (a0 - a1))), (IEEE.Max_comm (Abs a2)).
Qed.

Lemma pixelPass_sym (M : MathLib) (d : perceptual) (aLAB bLAB : list (list labColor))
    (aLap bLap : list (list (list float))) (cpd freq : list float) (x y : Z) :
  pixelPass M d aLAB bLAB aLap bLap cpd freq x y
  = pixelPass M d bLAB aLAB bLap aLap cpd freq x y.
Proof.
  unfold pixelPass. rewrite (pixelAdapt_sym d aLap bLap).
  destruct (pixelAdapt d bLap aLap x y) as [adapt|]; cbn [bind]; [|reflexivity].
  rewrite (mapM_ext (levelContrast M aLap bLap cpd adapt x y)
                    (levelContrast M bLap aLap cpd adapt x y))
    by (intros; apply levelContrast_sym).
  destruct (mapM _ _) as [cm|]; cbn [bind]; [|reflexivity].
  destruct (pixelFactor cm freq) as [factor|]; cbn [bind]; [|reflexivity].
  destruct (at3 aLap 0 y x) as [a0|], (at3 bLap 0 y x) as [b0|];
    cbn [bind]; try reflexivity.
  rewrite (IEEE.Abs_sub_swap a0 b0).
  destruct (_ <? _)%float; [reflexivity|].
  destruct (negb (nocolor d)); [|reflexivity].
  destruct (index aLAB y) as [ra|], (index bLAB y) as [rb|]; cbn [bind];
    try reflexivity.
  - destruct (index ra x) as [la|], (index rb x) as [lb|]; cbn [bind];
      try reflexivity.
    now rewrite (IEEE.sq_sub_swap (a_ la)), (IEEE.sq_sub_swap (b_ la)).
  - destruct (index ra x); reflexivity.
  - destruct (index rb x); reflexivity.
Qed.

(** X4: [Compare] does not distinguish its first image from its second:
    exchanging them gives the same difference image, the same count and the
    same error, and a panic exactly where there was one. *)
Theorem Compare_symmetric (M : MathLib) (d : perceptual) (a b : Image) :
  Compare M d a b = Compare M d b a.
Proof.
  destruct (Z.eq_dec (Dx (Bounds a)) (Dx (Bounds b))) as [Hw | Hw];
    [|rewrite !Compare_mismatch by (left; congruence); reflexivity].
  destruct (Z.eq_dec (Dy (Bounds a)) (Dy (Bounds b))) as [Hh | Hh];
    [|rewrite !Compare_mismatch by (right; congruence); reflexivity].
  rewrite (Compare_same_size M d a b), (Compare_same_size M d b a) by congruence.
  rewrite <- Hw, <- Hh.
  destruct (labLap M a (gamma d) (lum d)) as [[aLAB aLap]|],
    (labLap M b (gamma d) (lum d)) as [[bLAB bLap]|]; cbn [bind]; try reflexivity.
  destruct (freqTable M _) as [freq|]; cbn [bind]; [|reflexivity].
  f_equal. apply foldM_ext. intros st y _. apply foldM_ext. intros [di n] x _.
  unfold pixelStep. now rewrite pixelPass_sym.
Qed.

(** ** The colour test *)

Lemma okDims_dec (h w : Z) : {okDims h w} + {~ okDims h w}.
Proof.
  unfold okDims.
  destruct (Z_le_gt_dec 1 h); [|right; lia].
  destruct (Z.eq_dec w 0); [left; lia|].
  destruct (Z_le_gt_dec 2 h); [|right; lia].
  destruct (Z_le_gt_dec 2 w); [left; lia | right; lia].
Qed.

Lemma filter_length_mono {A : Type} (f g : A -> bool) (l : list A) :
  (forall a, In a l -> f a = true -> g a = true) ->
  (length (filter f l) <= length (filter g l))%nat.
Proof.
  induction l as [|a l IH]; intros H; [reflexivity|]. cbn [filter].
  assert (IH' : (length (filter f l) <= length (filter g l))%nat)
    by (apply IH; intros; apply H; [now right | assumption]).
  destruct (f a) eqn:Hf.
  - rewrite (H a (or_introl eq_refl) Hf). cbn. lia.
  - destruct (g a); cbn; lia.
Qed.

(** Without the colour test a pixel passes whenever it passes with it. *)
Lemma pixelPass_nocolor (M : MathLib) (d1 d2 : perceptual)
    (aLAB bLAB : list (list labColor)) (aLap bLap : list (list (list float)))
    (cpd freq : list float) (x y : Z) (p1 p2 : bool) :
  ai d1 = ai d2 -> nocolor d1 = true ->
  pixelPass M d1 aLAB bLAB aLap bLap cpd freq x y = Val p1 ->
  pixelPass M d2 aLAB bLAB aLap bLap cpd freq x y = Val p2 ->
  p2 = true -> p1 = true.
Proof.
  unfold pixelPass, pixelAdapt. intros Hai Hnc H1 H2 Hp. rewrite Hai, Hnc in H1.
  destruct (at3 aLap (ai d2) y x); cbn [bind] in *; [|discriminate].
  destruct (at3 bLap (ai d2) y x); cbn [bind] in *; [|discriminate].
  destruct (mapM _ _); cbn [bind] in *; [|discriminate].
  destruct (pixelFactor _ _); cbn [bind] in *; [|discriminate].
  destruct (at3 aLap 0 y x); cbn [bind] in *; [|discriminate].
  destruct (at3 bLap 0 y x); cbn [bind] in *; [|discriminate].
  destruct (_ <? _)%float; [congruence|].
  cbn [negb] in H1. congruence.
Qed.

Lemma NRGBA_At_inside (p : NRGBAImage) (x y : Z) (c : NRGBA) :
  NRGBA_At p x y = c -> c <> zeroColor -> PointIn x y (PRect p) = true.
Proof.
  unfold NRGBA_At. destruct (PointIn x y (PRect p)); [reflexivity|].
  intros <- H. now contradiction H.
Qed.

(** X5: switching the colour test off ([nocolor]) never adds a difference.
    With the other parameters fixed, [Compare] with [nocolor = true] and
    [Compare] with [nocolor = false] return or panic together and report the
    same error; the count without the colour test is at most the count with
    it, and every pixel painted red without it is painted red with it. *)
Theorem Compare_nocolor_monotone (M : MathLib) (g l f c : float) (a b : Image) :
  match Compare M (NewPerceptual M g l f c true) a b,
        Compare M (NewPerceptual M g l f c false) a b with
  | Val (diff, n, e), Val (diff', n', e') =>
      n <= n' /\ e = e' /\
      forall di di', diff = Some di -> diff' = Some di' ->
        forall x y, NRGBA_At di x y = failColor -> NRGBA_At di' x y = failColor
  | Panic, Panic => True
  | _, _ => False
  end.
Proof.
  set (d1 := NewPerceptual M g l f c true). set (d2 := NewPerceptual M g l f c false).
  destruct (Z.eq_dec (Dx (Bounds a)) (Dx (Bounds b))) as [Hw | Hw];
    [|rewrite !Compare_mismatch by (now left);
      split; [lia | split; [reflexivity | discriminate]]].
  destruct (Z.eq_dec (Dy (Bounds a)) (Dy (Bounds b))) as [Hh | Hh];
    [|rewrite !Compare_mismatch by (now right);
      split; [lia | split; [reflexivity | discriminate]]].
  destruct (okDims_dec (Dy (Bounds a)) (Dx (Bounds a))) as [Hok | Hok];
    [|rewrite !Compare_Panic by assumption; exact I].
  destruct (Compare_paint M d1 a b Hw Hh Hok (NewPerceptual_ai M g l f c true))
    as (aLap & bLap & freq & pass1 & Ha & Hb & Hf & HP1 & HC1).
  destruct (Compare_paint M d2 a b Hw Hh Hok (NewPerceptual_ai M g l f c false))
    as (aLap' & bLap' & freq' & pass2 & Ha' & Hb' & Hf' & HP2 & HC2).
  change (gamma d2) with (gamma d1) in *. change (lum d2) with (lum d1) in *.
  change (odp d2) with (odp d1) in *.
  rewrite Ha in Ha'. injection Ha' as <-. rewrite Hb in Hb'. injection Hb' as <-.
  rewrite Hf in Hf'. injection Hf' as <-.
  assert (Hle : forall x y, 0 <= x < Dx (Bounds a) -> 0 <= y < Dy (Bounds a) ->
            pass2 x y = true -> pass1 x y = true).
  { intros x y Hx Hy Hp2.
    eapply (pixelPass_nocolor M d1 d2);
      [reflexivity | reflexivity | apply HP1; assumption | apply HP2; assumption
      | exact Hp2]. }
  rewrite HC1, HC2.
  assert (Hw0 : 0 <= Dx (Bounds a)) by (unfold okDims in Hok; lia).
  assert (Hh0 : 0 <= Dy (Bounds a)) by (unfold okDims in Hok; lia).
  destruct (paint_image pass1 _ _ Hw0 Hh0) as (HR1 & HAt1 & Hn1 & _ & _).
  destruct (paint_image pass2 _ _ Hw0 Hh0) as (HR2 & HAt2 & Hn2 & _ & _).
  split; [|split; [reflexivity|]].
  - rewrite Hn1, Hn2. unfold len. apply inj_le. apply filter_length_mono.
    intros [x y] Hin. apply In_pixels in Hin as [Hx Hy]. cbn [fst snd].
    specialize (Hle x y Hx Hy). destruct (pass1 x y), (pass2 x y); auto.
  - intros di di' [= <-] [= <-] x y Hfail.
    pose proof (NRGBA_At_inside _ x y failColor Hfail) as Hin.
    rewrite HR1, Rect_origin in Hin by assumption.
    specialize (Hin ltac:(discriminate)). apply PointIn_spec in Hin. cbn in Hin.
    rewrite HAt1 in Hfail by lia. rewrite HAt2 by lia.
    specialize (Hle x y ltac:(lia) ltac:(lia)).
    destruct (pass1 x y), (pass2 x y); try reflexivity; try discriminate.
    now specialize (Hle eq_refl).
Qed.

(** ** An image against itself *)

Lemma pixelPass_self (M : MathLib) (d : perceptual) (L : list (list labColor))
    (P : list (list (list float))) (cpd freq : list float) (x y : Z) (p : bool) :
  (forall r, (Pow M 10 r <? 0)%float = false) ->
  pixelPass M d L L P P cpd freq x y = Val p -> p = true.
Proof.
  intros HPow. unfold pixelPass. intros H.
  destruct (pixelAdapt d P P x y) as [adapt|]; cbn [bind] in H; [|discriminate].
  destruct (mapM _ _) as [cm|]; cbn [bind] in H; [|discriminate].
  destruct (pixelFactor cm freq) as [factor|] eqn:Hfac; cbn [bind] in H; [|discriminate].
  apply pixelFactor_inv in Hfac as (f' & ->).
  destruct (at3 P 0 y x) as [a0|]; cbn [bind] in H; [|discriminate].
  rewrite IEEE.ltb_abs_sub_self in H
    by (apply IEEE.mul_ge1_nonneg; [apply IEEE.clamp_lo | apply HPow]).
  destruct (negb (nocolor d)); [|congruence].
  destruct (index L y) as [ra|]; cbn [bind] in H; [|discriminate].
  destruct (index ra x) as [la|]; cbn [bind] in H; [|discriminate].
  rewrite IEEE.chroma_self in H by apply IEEE.clamp_lo. congruence.
Qed.

(** X6: an image of at least two rows and two columns compared with itself
    shows no difference, whatever its pixels and the parameters of the
    comparator (infinite or undefined luminances included): the count is [0]
    and every pixel of the difference image is opaque black.  What is needed
    of [math.Pow] is that [Pow(10, r)] is never below zero. *)
Theorem Compare_identity (M : MathLib) (g l f c : float) (nc : bool)
    (a : Image) (w h : Z) :
  (forall r, (Pow M 10 r <? 0)%float = false) ->
  Dx (Bounds a) = w -> Dy (Bounds a) = h -> 2 <= w -> 2 <= h ->
  exists diff,
    Compare M (NewPerceptual M g l f c nc) a a = Val (Some diff, 0, None) /\
    PRect diff = Rect 0 0 w h /\
    forall x y, 0 <= x < w -> 0 <= y < h -> NRGBA_At diff x y = passColor.
Proof.
  intros HPow Hwa Hha Hw Hh.
  destruct (Compare_paint M (NewPerceptual M g l f c nc) a a)
    as (aLap & bLap & freq & pass & Ha & Hb & _ & HP & HC);
    [reflexivity | reflexivity | unfold okDims; lia | apply NewPerceptual_ai |].
  rewrite Ha in Hb. injection Hb as <-.
  rewrite Hwa, Hha in HC, HP.
  assert (Hpass : forall x y, 0 <= x < w -> 0 <= y < h -> pass x y = true).
  { intros x y Hx Hy. apply (pixelPass_self M _ _ _ _ _ x y _ HPow (HP x y Hx Hy)). }
  destruct (paint_image pass w h) as (HR & HAt & Hn & _ & _); [lia | lia |].
  assert (Hzero : len (filter (fun xy => negb (pass (fst xy) (snd xy))) (pixels w h)) = 0).
  { rewrite (filter_ext_in _ (fun _ => false)); [|].
    - clear. unfold len. induction (pixels w h); [reflexivity | assumption].
    - intros [x y] Hin. apply In_pixels in Hin as [Hx Hy]. cbn [fst snd].
      now rewrite Hpass. }
  rewrite Hzero in Hn. rewrite Hn in HC.
  eexists. split; [exact HC|]. split; [exact HR|].
  intros x y Hx Hy. now rewrite HAt, Hpass.
Qed.

Lemma Compare_identity_witness :
  exists diff,
    Compare exampleMath (NewPerceptual exampleMath 2.2 100 45 1 false)
      (uniformImage 3 2 grey) (uniformImage 3 2 grey) = Val (Some diff, 0, None) /\
    PRect diff = Rect 0 0 3 2 /\
    forall x y, 0 <= x < 3 -> 0 <= y < 2 -> NRGBA_At diff x y = passColor.
Proof.
  apply (Compare_identity exampleMath 2.2 100 45 1 false (uniformImage 3 2 grey) 3 2);
    [intros r; reflexivity | reflexivity | reflexivity | lia | lia].
Defined.

(** ** Scotopic regions *)

(** Below an adaptation luminance of 10 the colour test passes every pixel:
    the colour factor is replaced by [0], and the elevation factor is never
    below the product. *)
Lemma colour_test_scotopic (d : perceptual) (aLAB bLAB : list (list labColor))
    (h w x y : Z) (adapt f : float) :
  shape h w aLAB -> shape h w bLAB -> 0 <= x < w -> 0 <= y < h ->
  (adapt <? 10)%float = true ->
  (if negb (nocolor d) then
     ra <- index aLAB y ;; la <- index ra x ;;
     rb <- index bLAB y ;; lb <- index rb x ;;
     if (clampFactor f <?
           ((a_ la - a_ lb) * (a_ la - a_ lb) + (b_ la - b_ lb) * (b_ la - b_ lb))
           * (if (adapt <? 10)%float then 0%float else cf d))%float
     then Val false else Val true
   else Val true) = Val true.
Proof.
  intros HA HB Hx Hy Hlt. destruct (negb (nocolor d)); [|reflexivity].
  rewrite Hlt.
  destruct (index_Val aLAB y) as (ra & Hra & Hra'); [destruct HA as [-> _]; exact Hy|].
  destruct (index_Val bLAB y) as (rb & Hrb & Hrb'); [destruct HB as [-> _]; exact Hy|].
  assert (Hlra : len ra = w).
  { destruct HA as [_ HA]. rewrite Forall_forall in HA. apply HA.
    eapply nth_error_In; eassumption. }
  assert (Hlrb : len rb = w).
  { destruct HB as [_ HB]. rewrite Forall_forall in HB. apply HB.
    eapply nth_error_In; eassumption. }
  destruct (index_Val ra x) as (la & Hla & _); [lia|].
  destruct (index_Val rb x) as (lb & Hlb & _); [lia|].
  rewrite Hra. cbn [bind]. rewrite Hla. cbn [bind].
  rewrite Hrb. cbn [bind]. rewrite Hlb. cbn [bind].
  now rewrite IEEE.ltb_mul_zero by apply IEEE.clamp_lo.
Qed.

Lemma pixelPass_scotopic (M : MathLib) (d d' : perceptual)
    (aLAB bLAB : list (list labColor)) (aLap bLap : list (list (list float)))
    (cpd freq : list float) (h w x y : Z) :
  shape h w aLAB -> shape h w bLAB -> 0 <= x < w -> 0 <= y < h ->
  ai d = ai d' ->
  (forall adapt, pixelAdapt d aLap bLap x y = Val adapt -> (adapt <? 10)%float = true) ->
  pixelPass M d aLAB bLAB aLap bLap cpd freq x y
  = pixelPass M d' aLAB bLAB aLap bLap cpd freq x y.
Proof.
  intros HA HB Hx Hy Hai Hsc. unfold pixelPass.
  assert (E : pixelAdapt d' aLap bLap x y = pixelAdapt d aLap bLap x y)
    by (unfold pixelAdapt; now rewrite Hai).
  rewrite E.
  destruct (pixelAdapt d aLap bLap x y) as [adapt|]; cbn [bind]; [|reflexivity].
  specialize (Hsc adapt eq_refl).
  destruct (mapM _ _) as [cm|]; cbn [bind]; [|reflexivity].
  destruct (pixelFactor cm freq) as [factor|] eqn:Hfac; cbn [bind]; [|reflexivity].
  apply pixelFactor_inv in Hfac as (f' & ->).
  destruct (at3 aLap 0 y x) as [a0|]; cbn [bind]; [|reflexivity].
  destruct (at3 bLap 0 y x) as [b0|]; cbn [bind]; [|reflexivity].
  destruct (clampFactor f' * tvi M adapt <? Abs (a0 - b0))%float; [reflexivity|].
  rewrite (colour_test_scotopic d aLAB bLAB h w x y adapt f') by assumption.
  now rewrite (colour_test_scotopic d' aLAB bLAB h w x y adapt f') by assumption.
Qed.

(** X7: where the adaptation luminance is below 10 at every pixel, the
    colour test decides nothing: [Compare] gives the same difference image
    and the same count whatever the colour factor [cf], and whether
    [nocolor] is set or not. *)
Theorem Compare_scotopic (M : MathLib) (g l f c c' : float) (nc nc' : bool)
    (a b : Image) :
  (forall aLAB aLap bLAB bLap x y adapt,
     labLap M a g l = Val (aLAB, aLap) -> labLap M b g l = Val (bLAB, bLap) ->
     0 <= x < Dx (Bounds a) -> 0 <= y < Dy (Bounds a) ->
     pixelAdapt (NewPerceptual M g l f c nc) aLap bLap x y = Val adapt ->
     (adapt <? 10)%float = true) ->
  Compare M (NewPerceptual M g l f c nc) a b
  = Compare M (NewPerceptual M g l f c' nc') a b.
Proof.
  intros Hsc.
  set (d := NewPerceptual M g l f c nc) in *. set (d' := NewPerceptual M g l f c' nc').
  destruct (Z.eq_dec (Dx (Bounds a)) (Dx (Bounds b))) as [Hw | Hw];
    [|now rewrite !Compare_mismatch by (now left)].
  destruct (Z.eq_dec (Dy (Bounds a)) (Dy (Bounds b))) as [Hh | Hh];
    [|now rewrite !Compare_mismatch by (now right)].
  destruct (okDims_dec (Dy (Bounds a)) (Dx (Bounds a))) as [Hok | Hok];
    [|now rewrite !Compare_Panic by assumption].
  rewrite !Compare_same_size by assumption.
  change (gamma d') with g. change (lum d') with l. change (odp d') with (odp d).
  change (gamma d) with g. change (lum d) with l.
  destruct (labLap_Val M a g l Hok) as (aLap & Ha & _ & HaL & _).
  assert (Hokb : okDims (Dy (Bounds b)) (Dx (Bounds b))) by (now rewrite <- Hw, <- Hh).
  destruct (labLap_Val M b g l Hokb) as (bLap & Hb & _ & HbL & _).
  rewrite <- Hw, <- Hh in HbL.
  rewrite Ha, Hb. cbn [bind]. cbv zeta.
  destruct (freqTable M _) as [freq|]; cbn [bind]; [|reflexivity].
  f_equal. apply foldM_ext. intros st y Hy. apply foldM_ext. intros [di n] x Hx.
  apply In_upto in Hx, Hy. unfold pixelStep.
  assert (E : pixelPass M d (labGrid M a g) (labGrid M b g) aLap bLap
                (halvings (Z.to_nat lapLevels) (0.5 * float64 (Dx (Bounds a)) / odp d)%float)
                freq x y
              = pixelPass M d' (labGrid M a g) (labGrid M b g) aLap bLap
                (halvings (Z.to_nat lapLevels) (0.5 * float64 (Dx (Bounds a)) / odp d)%float)
                freq x y).
  { apply (pixelPass_scotopic M d d' _ _ aLap bLap _ freq
             (Dy (Bounds a)) (Dx (Bounds a)) x y HaL HbL Hx Hy eq_refl).
    intros adapt Hadapt. now apply (Hsc _ aLap _ bLap x y adapt Ha Hb). }
  now rewrite E.
Qed.

Lemma Compare_scotopic_witness :
  Compare exampleMath (NewPerceptual exampleMath 2.2 100 45 1 false)
    (uniformImage 2 2 black) (uniformImage 2 2 black)
  = Compare exampleMath (NewPerceptual exampleMath 2.2 100 45 7 true)
    (uniformImage 2 2 black) (uniformImage 2 2 black).
Proof.
  apply (Compare_scotopic exampleMath 2.2 100 45 1 7 false true
           (uniformImage 2 2 black) (uniformImage 2 2 black)).
  intros aLAB aLap bLAB bLap x y adapt Ha Hb Hx Hy Hadapt.
  vm_compute in Ha, Hb. injection Ha as _ <-. injection Hb as _ <-.
  change (Dx (Bounds (uniformImage 2 2 black))) with 2 in Hx.
  change (Dy (Bounds (uniformImage 2 2 black))) with 2 in Hy.
  assert (Ex : x = 0 \/ x = 1) by lia. assert (Ey : y = 0 \/ y = 1) by lia.
  destruct Ex as [-> | ->], Ey as [-> | ->];
    vm_compute in Hadapt; injection Hadapt as <-; reflexivity.
Defined.

(** ** What [Compare] reads of an image *)

Lemma xyz_rgb (M : MathLib) (c c' : Color) (g : float) :
  cR c = cR c' -> cG c = cG c' -> cB c = cB c' -> xyz M c g = xyz M c' g.
Proof. unfold xyz. now intros -> -> ->. Qed.

Lemma labLap_window (M : MathLib) (m m' : Image) (g l : float) :
  Dx (Bounds m) = Dx (Bounds m') -> Dy (Bounds m) = Dy (Bounds m') ->
  (forall x y, 0 <= x < Dx (Bounds m) -> 0 <= y < Dy (Bounds m) ->
     cR (At m x y) = cR (At m' x y) /\ cG (At m x y) = cG (At m' x y) /\
     cB (At m x y) = cB (At m' x y)) ->
  labLap M m g l = labLap M m' g l.
Proof.
  intros Hw Hh Hpix. unfold labLap. rewrite <- Hw, <- Hh.
  destruct (makeslice (Dy (Bounds m))); cbn [bind]; [|reflexivity].
  rewrite (mapM_ext _ (fun y =>
             _ <- makeslice (Dx (Bounds m)) ;;
             Val (map (fun x =>
                    let '(cx, cy, cz) := xyz M (At m' x y) g in
                    (lab M cx cy cz, (cy * l)%float)) (upto (Dx (Bounds m)))))).
  - reflexivity.
  - intros y Hy. apply In_upto in Hy.
    destruct (makeslice (Dx (Bounds m))); cbn [bind]; [|reflexivity].
    f_equal. apply map_ext_in. intros x Hx. apply In_upto in Hx.
    destruct (Hpix x y Hx Hy) as (Er & Eg & Eb).
    now rewrite (xyz_rgb M (At m x y) (At m' x y) g Er Eg Eb).
Qed.

(** X8: of an image, [Compare] reads the width and the height of the
    rectangle and the red, green and blue channels at the points
    [(x, y)] with [0 <= x < width] and [0 <= y < height].  Two images that
    agree on these give the same result: the origin of the rectangle, the
    alpha channel and the pixels elsewhere play no part. *)
Theorem Compare_reads_rgb_from_origin (M : MathLib) (d : perceptual) (a a' b b' : Image) :
  Dx (Bounds a) = Dx (Bounds a') -> Dy (Bounds a) = Dy (Bounds a') ->
  Dx (Bounds b) = Dx (Bounds b') -> Dy (Bounds b) = Dy (Bounds b') ->
  (forall x y, 0 <= x < Dx (Bounds a) -> 0 <= y < Dy (Bounds a) ->
     cR (At a x y) = cR (At a' x y) /\ cG (At a x y) = cG (At a' x y) /\
     cB (At a x y) = cB (At a' x y)) ->
  (forall x y, 0 <= x < Dx (Bounds b) -> 0 <= y < Dy (Bounds b) ->
     cR (At b x y) = cR (At b' x y) /\ cG (At b x y) = cG (At b' x y) /\
     cB (At b x y) = cB (At b' x y)) ->
  Compare M d a b = Compare M d a' b'.
Proof.
  intros Hwa Hha Hwb Hhb Ha Hb. unfold Compare.
  rewrite <- Hwa, <- Hha, <- Hwb, <- Hhb.
  rewrite (labLap_window M a a' _ _ Hwa Hha Ha), (labLap_window M b b' _ _ Hwb Hhb Hb).
  reflexivity.
Qed.

Lemma Compare_reads_rgb_from_origin_witness :
  Compare exampleMath (NewPerceptual exampleMath 2.2 100 45 1 false)
    (uniformImage 2 2 grey) (uniformImage 2 2 black)
  = Compare exampleMath (NewPerceptual exampleMath 2.2 100 45 1 false)
    shiftedImage (uniformImage 2 2 black).
Proof.
  apply (Compare_reads_rgb_from_origin exampleMath
           (NewPerceptual exampleMath 2.2 100 45 1 false)
           (uniformImage 2 2 grey) shiftedImage
           (uniformImage 2 2 black) (uniformImage 2 2 black));
    try reflexivity.
  - intros x y Hx Hy.
    change (Dx (Bounds (uniformImage 2 2 grey))) with 2 in Hx.
    change (Dy (Bounds (uniformImage 2 2 grey))) with 2 in Hy.
    assert (Ex : x = 0 \/ x = 1) by lia. assert (Ey : y = 0 \/ y = 1) by lia.
    destruct Ex as [-> | ->], Ey as [-> | ->]; repeat split; reflexivity.
  - intros x y _ _. repeat split; reflexivity.
Defined.

(** ** The elevation factor *)

(** X9: the elevation factor that [Compare] uses at a pixel is never below
    1 and never above 10; unless it is NaN, it lies in [1, 10]. *)
Theorem pixelFactor_range (cm : list (float * float)) (freq : list float) (f : float) :
  pixelFactor cm freq = Val f ->
  (f <? 1)%float = false /\ (10 <? f)%float = false /\
  (is_nan f = false -> (1 <=? f)%float = true /\ (f <=? 10)%float = true).
Proof.
  intros H. apply pixelFactor_inv in H as (x & ->).
  split; [apply IEEE.clamp_lo|]. split; [apply IEEE.clamp_hi|].
  intros Hn. split.
  - apply IEEE.nlt_le; [apply IEEE.clamp_lo | exact Hn | reflexivity].
  - apply IEEE.nlt_le; [apply IEEE.clamp_hi | reflexivity | exact Hn].
Qed.

Lemma pixelFactor_range_witness :
  (3 <? 1)%float = false /\ (10 <? 3)%float = false /\
  (is_nan 3 = false -> (1 <=? 3)%float = true /\ (3 <=? 10)%float = true).
Proof.
  apply (pixelFactor_range
           [(1, 3); (0, 1); (0, 1); (0, 1); (0, 1); (0, 1)]%float
           [1; 1; 1; 1; 1; 1]%float 3%float).
  vm_compute. reflexivity.
Defined.

(** X10: the clamp does not catch NaN.  When the contrasts of a pixel sum
    to NaN, the elevation factor is NaN, outside [1, 10]. *)
Theorem pixelFactor_nan (cm : list (float * float)) (freq : list float) :
  lapLevels - 2 <= len cm -> lapLevels - 2 <= len freq ->
  is_nan (fold_left (fun s c => (s + fst c)%float) cm 0%float) = true ->
  exists f, pixelFactor cm freq = Val f /\ is_nan f = true.
Proof.
  intros Hc Hf Hnan. unfold pixelFactor.
  rewrite (IEEE.ltb_nan_l _ 1e-5%float Hnan).
  set (cs := fold_left _ cm 0%float) in *.
  destruct (foldM_inv (fun pre s => pre <> [] -> is_nan s = true)
              (fun factor i =>
                 c <- index cm i ;; f <- index freq i ;;
                 Val (factor + fst c * f * snd c / cs)%float)
              (upto (lapLevels - 2)) 0%float) as (r & Hr & Hi).
  - intros H. now contradiction H.
  - intros pre i post s Hl _.
    assert (Hin : In i (upto (lapLevels - 2))) by (rewrite Hl; apply in_elt).
    apply In_upto in Hin.
    rewrite (index_nth cm i (0%float, 0%float)) by lia. cbn [bind].
    rewrite (index_nth freq i 0%float) by lia. cbn [bind].
    eexists. split; [reflexivity|]. intros _.
    apply IEEE.add_nan_r, IEEE.div_nan, Hnan.
  - rewrite Hr. cbn [bind]. eexists. split; [reflexivity|].
    assert (Hrn : is_nan r = true) by (apply Hi; discriminate).
    unfold clampFactor.
    rewrite (IEEE.ltb_nan_l r 1 Hrn), (IEEE.ltb_nan_r 10 r Hrn). exact Hrn.
Qed.

Lemma pixelFactor_nan_witness :
  exists f,
    pixelFactor [(nan, 1); (0, 1); (0, 1); (0, 1); (0, 1); (0, 1)]%float
                [1; 1; 1; 1; 1; 1]%float = Val f /\ is_nan f = true.
Proof.
  apply (pixelFactor_nan
           [(nan, 1); (0, 1); (0, 1); (0, 1); (0, 1); (0, 1)]%float
           [1; 1; 1; 1; 1; 1]%float);
    [vm_compute; discriminate | vm_compute; discriminate | reflexivity].
Defined.

Lemma pyramid_spec_witness :
  exists p, pyramid [[1; 2]; [3; 4]]%float = Val p /\ len p = lapLevels /\
    Forall (shape 2 2) p /\ nth 0 p [] = [[1; 2]; [3; 4]]%float /\
    forall k, (k < 7)%nat -> forall y x, 0 <= y < 2 -> 0 <= x < 2 ->
      cell (nth (S k) p []) y x = blur (nth k p []) 2 2 y x.
Proof.
  apply (pyramid_spec [[1; 2]; [3; 4]]%float 2 2);
    [split; [reflexivity | repeat constructor] | lia | lia].
Defined.

(** ** Images without columns *)

Lemma pixels_no_column (h : Z) : pixels 0 h = [].
Proof.
  unfold pixels. induction (upto h) as [|y l IH]; [reflexivity | exact IH].
Qed.

Lemma halvings_zon (n i : nat) (c : float) :
  IEEE.zero_or_nan (Prim2SF c) ->
  IEEE.zero_or_nan (Prim2SF (nth i (halvings n c) 0%float)).
Proof.
  revert i c. induction n as [|n IH]; intros i c Hc.
  - destruct i; exact I.
  - destruct i as [|i]; [exact Hc|]. cbn [halvings nth]. apply IH.
    rewrite FloatAxioms.mul_spec. now apply IEEE.mul_zon_r.
Qed.

Lemma csf_zon (M : MathLib) (c lum : float) :
  IEEE.zero_or_nan (Prim2SF c) -> IEEE.zero_or_nan (Prim2SF (csf M c lum)).
Proof.
  intros Hc. unfold csf. cbv zeta. rewrite !FloatAxioms.mul_spec.
  apply IEEE.mul_zon_l, IEEE.mul_zon_l, IEEE.mul_zon_r, Hc.
Qed.

(** X11: on two images with no column and the same number of rows, at
    least one, a comparator built by [NewPerceptual] returns the empty
    difference image and the count [0]; on the way, each of the six divisions
    [csfMax / csf(cpd[i], 100.0)] that fill [freq] has a divisor that is zero
    or NaN. *)
Theorem Compare_no_column (M : MathLib) (g l f c : float) (nc : bool)
    (a b : Image) (h : Z) :
  Dx (Bounds a) = 0 -> Dx (Bounds b) = 0 ->
  Dy (Bounds a) = h -> Dy (Bounds b) = h -> 1 <= h ->
  Compare M (NewPerceptual M g l f c nc) a b
  = Val (Some (NewNRGBA (Rect 0 0 0 h)), 0, None) /\
  forall i, 0 <= i < lapLevels - 2 ->
    let cpd := halvings (Z.to_nat lapLevels)
                 (0.5 * float64 (Dx (Bounds a)) / odp (NewPerceptual M g l f c nc))%float in
    let divisor := csf M (nth (Z.to_nat i) cpd 0%float) 100 in
    (divisor =? 0)%float = true \/ is_nan divisor = true.
Proof.
  intros Hwa Hwb Hha Hhb Hh. split.
  - destruct (Compare_paint M (NewPerceptual M g l f c nc) a b)
      as (aLap & bLap & freq & pass & _ & _ & _ & _ & HC);
      [congruence | congruence | unfold okDims; lia | apply NewPerceptual_ai |].
    rewrite HC, Hwa, Hha, pixels_no_column. reflexivity.
  - intros i Hi. cbv zeta. rewrite Hwa. apply IEEE.zon_spec, csf_zon, halvings_zon.
    change (0.5 * float64 0)%float with 0%float.
    rewrite FloatAxioms.div_spec. now apply IEEE.div_zon_l.
Qed.

Lemma Compare_no_column_witness :
  Compare exampleMath (NewPerceptual exampleMath 2.2 100 45 1 false)
    (uniformImage 0 2 grey) (uniformImage 0 2 black)
  = Val (Some (NewNRGBA (Rect 0 0 0 2)), 0, None) /\
  forall i, 0 <= i < lapLevels - 2 ->
    let cpd := halvings (Z.to_nat lapLevels)
                 (0.5 * float64 (Dx (Bounds (uniformImage 0 2 grey)))
                  / odp (NewPerceptual exampleMath 2.2 100 45 1 false))%float in
    let divisor := csf exampleMath (nth (Z.to_nat i) cpd 0%float) 100 in
    (divisor =? 0)%float = true \/ is_nan divisor = true.
Proof.
  apply (Compare_no_column exampleMath 2.2 100 45 1 false
           (uniformImage 0 2 grey) (uniformImage 0 2 black) 2);
    try reflexivity; lia.
Defined.

(** ** The threshold of the command *)

(** X12: [Set] reads one trailing ['%'] as the percent mark.  When
    [ParseFloat] accepts [s], setting [s] followed by ['%'] stores its value
    with [percent] set; setting [s] itself, if it is not empty and does not
    end in ['%'], stores the value with [percent] cleared. *)
Theorem thresholdVar_Set_percent_suffix (E : Type) (ParseFloat : gostring -> float + E)
    (v : thresholdVar) (s : gostring) (val : float) :
  ParseFloat s = inl val ->
  thresholdVar_Set E ParseFloat v (s ++ [Byte.x25])
  = ({| value := val; percent := true |}, None) /\
  (s <> [] -> isPercent (last s Byte.x00) = false ->
   thresholdVar_Set E ParseFloat v s = ({| value := val; percent := false |}, None)).
Proof.
  intros Hp. unfold thresholdVar_Set. split.
  - destruct (Z.eqb_spec (len (s ++ [Byte.x25])) 0) as [H0 | _].
    + unfold len in H0. rewrite length_app in H0. cbn in H0. lia.
    + rewrite last_last, removelast_last. cbn [isPercent]. now rewrite Hp.
  - intros Hne Hlast.
    destruct (Z.eqb_spec (len s) 0) as [H0 | _].
    + destruct s; [now contradiction Hne | unfold len in H0; cbn in H0; lia].
    + now rewrite Hlast, Hp.
Qed.

Lemma thresholdVar_Set_percent_suffix_witness :
  thresholdVar_Set unit exampleParse {| value := 100; percent := false |}
    ([Byte.x30; Byte.x2e; Byte.x35] ++ [Byte.x25])
  = ({| value := 0.5; percent := true |}, None) /\
  ([Byte.x30; Byte.x2e; Byte.x35] <> [] ->
   isPercent (last [Byte.x30; Byte.x2e; Byte.x35] Byte.x00) = false ->
   thresholdVar_Set unit exampleParse {| value := 100; percent := false |}
     [Byte.x30; Byte.x2e; Byte.x35]
   = ({| value := 0.5; percent := false |}, None)).
Proof.
  apply (thresholdVar_Set_percent_suffix unit exampleParse
           {| value := 100; percent := false |} [Byte.x30; Byte.x2e; Byte.x35] 0.5%float).
  reflexivity.
Defined.

(** X13: a [Set] that returns an error leaves the threshold as it was, and
    so does not clear an earlier percent mark; the empty string is accepted
    without a call of [ParseFloat], and sets the value to [0] but keeps the
    percent mark. *)
Theorem thresholdVar_Set_error_keeps (E : Type) (ParseFloat : gostring -> float + E)
    (v : thresholdVar) :
  (forall t v' e, thresholdVar_Set E ParseFloat v t = (v', Some e) ->
     v' = v /\ t <> [] /\
     (ParseFloat t = inr e \/ exists s, t = s ++ [Byte.x25] /\ ParseFloat s = inr e)) /\
  thresholdVar_Set E ParseFloat v [] = ({| value := 0; percent := percent v |}, None).
Proof.
  split; [|reflexivity].
  intros t v' e. unfold thresholdVar_Set.
  destruct (Z.eqb_spec (len t) 0) as [H0 | Hn]; [discriminate|].
  assert (Hne : t <> []) by (intros ->; now apply Hn).
  destruct (isPercent (last t Byte.x00)) eqn:Hlast.
  - destruct (ParseFloat (removelast t)) as [val | err] eqn:Hp; [discriminate|].
    intros [= <- <-]. split; [reflexivity|]. split; [exact Hne|]. right.
    exists (removelast t). split; [|exact Hp].
    rewrite (app_removelast_last Byte.x00 Hne) at 1. f_equal. f_equal.
    destruct (last t Byte.x00); try discriminate. reflexivity.
  - destruct (ParseFloat t) as [val | err] eqn:Hp; [discriminate|].
    intros [= <- <-]. split; [reflexivity|]. split; [exact Hne|]. now left.
Qed.

(** X14: [run] reports a difference, and exits with status 1, exactly when
    the count [n] is above the threshold value and, with a percent
    threshold, the ratio [n / (dx * dy)] is above it as well: the value of a
    percent threshold is compared with the count too.  A threshold that is
    NaN never reports a difference. *)
Theorem run_reports_difference_iff (t : thresholdVar) (n dx dy : Z) :
  (reportsDifference t n dx dy = true <->
   (value t <? float64 n)%float = true /\
   (percent t = true -> (value t <? float64 n / float64 (dx * dy))%float = true)) /\
  (is_nan (value t) = true -> reportsDifference t n dx dy = false).
Proof.
  unfold reportsDifference. cbv zeta. split.
  - destruct (percent t), (value t <? float64 n / float64 (dx * dy))%float,
      (value t <? float64 n)%float; cbn; split; try tauto; try discriminate;
      try (intros [H1 H2]; try discriminate; now specialize (H2 eq_refl)).
  - intros Hn. rewrite (IEEE.ltb_nan_l _ (float64 n) Hn).
    now rewrite orb_true_r.
Qed.

(** ** The adaptation luminance *)

(** X16: the adaptation luminance of a pixel, of which [tvi] takes the
    logarithm, is never below [1e-5]: unless it is NaN it is at least
    [1e-5], so the logarithm is never taken of zero or of a negative
    number. *)
Theorem pixelAdapt_range (d : perceptual) (aLap bLap : list (list (list float)))
    (x y : Z) (adapt : float) :
  pixelAdapt d aLap bLap x y = Val adapt ->
  (adapt <? 1e-5)%float = false /\
  (is_nan adapt = false -> (1e-5 <=? adapt)%float = true /\ (0 <? adapt)%float = true).
Proof.
  unfold pixelAdapt. intros H.
  apply bind_Val_inv in H as (u & _ & H). apply bind_Val_inv in H as (v & _ & H).
  injection H as <-.
  assert (Hlo : (Max (0.5 * (u + v)) 1e-5 <? 1e-5)%float = false)
    by apply IEEE.Max_not_below_r.
  split; [exact Hlo|]. intros Hn.
  assert (Hle : (1e-5 <=? Max (0.5 * (u + v)) 1e-5)%float = true)
    by (apply IEEE.nlt_le; [exact Hlo | exact Hn | reflexivity]).
  split; [exact Hle|].
  revert Hle. rewrite FloatAxioms.leb_spec, FloatAxioms.ltb_spec.
  unfold SFleb, SFltb.
  destruct (Prim2SF (Max (0.5 * (u + v)) 1e-5)) as [s|s| |s m e];
    vm_compute; try discriminate; try reflexivity.
  - destruct s; [discriminate | reflexivity].
  - destruct s; [discriminate | reflexivity].
Qed.

Lemma pixelAdapt_range_witness :
  (100 <? 1e-5)%float = false /\
  (is_nan 100 = false -> (1e-5 <=? 100)%float = true /\ (0 <? 100)%float = true).
Proof.
  apply (pixelAdapt_range (NewPerceptual exampleMath 2.2 100 45 1 false)
           (repeat [[100%float]] 8) (repeat [[100%float]] 8) 0 0 100%float).
  vm_compute. reflexivity.
Defined.

(** ** What [labLap] returns *)

Lemma grid_nth_error {A : Type} (f : Z -> Z -> A) (h w x y : Z) :
  0 <= x < w -> 0 <= y < h ->
  nth_error (nth (Z.to_nat y) (map (fun y => map (fun x => f x y) (upto w)) (upto h)) [])
            (Z.to_nat x) = Some (f x y).
Proof.
  intros Hx Hy.
  rewrite (nth_indep _ [] (map (fun x => f x 0) (upto w)))
    by (rewrite length_map, length_upto; lia).
  rewrite (map_nth (fun y => map (fun x => f x y) (upto w)) (upto h) 0).
  rewrite nth_upto by exact Hy.
  rewrite nth_error_map, (nth_error_nth' _ 0) by (rewrite length_upto; lia).
  now rewrite nth_upto.
Qed.

(** X17: for an image of at least two rows and two columns, [labLap]
    returns the L*a*b* colour [lab(xyz(m.At(x, y), gamma))] of every pixel,
    in [h] rows of [w], and a pyramid of [lapLevels] levels of [h] rows of
    [w] whose level 0 holds the luminance [Y * lum] of every pixel. *)
Theorem labLap_spec (M : MathLib) (m : Image) (g l : float) (w h : Z) :
  Dx (Bounds m) = w -> Dy (Bounds m) = h -> 2 <= w -> 2 <= h ->
  exists aLAB P,
    labLap M m g l = Val (aLAB, P) /\
    shape h w aLAB /\ len P = lapLevels /\ Forall (shape h w) P /\
    forall x y, 0 <= x < w -> 0 <= y < h ->
      nth_error (nth (Z.to_nat y) aLAB []) (Z.to_nat x)
      = Some (let '(cx, cy, cz) := xyz M (At m x y) g in lab M cx cy cz) /\
      cell (nth 0 P []) y x
      = (let '(cx, cy, cz) := xyz M (At m x y) g in (cy * l)%float).
Proof.
  intros Hw Hh Hw2 Hh2.
  destruct (labLap_Val M m g l) as (P & HP & [HlP HsP] & HsL & H0);
    [unfold okDims; lia|].
  rewrite Hw, Hh in *.
  exists (labGrid M m g), P. split; [exact HP|]. split; [exact HsL|].
  split; [exact HlP|]. split; [exact HsP|].
  intros x y Hx Hy. split.
  - unfold labGrid. rewrite Hw, Hh.
    apply (grid_nth_error (fun x y => let '(cx, cy, cz) := xyz M (At m x y) g in
                                      lab M cx cy cz)); assumption.
  - rewrite H0. unfold cell, lumGrid. rewrite Hw, Hh.
    pose proof (grid_nth_error (fun x y => let '(cx, cy, cz) := xyz M (At m x y) g in
                                           (cy * l)%float) h w x y Hx Hy) as E.
    now apply nth_error_nth.
Qed.

Lemma labLap_spec_witness :
  exists aLAB P,
    labLap exampleMath (uniformImage 3 2 grey) 2.2 100 = Val (aLAB, P) /\
    shape 2 3 aLAB /\ len P = lapLevels /\ Forall (shape 2 3) P /\
    forall x y, 0 <= x < 3 -> 0 <= y < 2 ->
      nth_error (nth (Z.to_nat y) aLAB []) (Z.to_nat x)
      = Some (let '(cx, cy, cz) := xyz exampleMath (At (uniformImage 3 2 grey) x y) 2.2 in
              lab exampleMath cx cy cz) /\
      cell (nth 0 P []) y x
      = (let '(cx, cy, cz) := xyz exampleMath (At (uniformImage 3 2 grey) x y) 2.2 in
         (cy * 100)%float).
Proof.
  apply (labLap_spec exampleMath (uniformImage 3 2 grey) 2.2 100 3 2);
    try reflexivity; lia.
Defined.

(** ** The command on an image and itself *)

(** X18: the command never reports a difference between an image of at
    least two rows and two columns and itself, whatever the parameters of
    the perceptual comparator, when the threshold value is not below zero:
    [Compare] returns the count [0], and the test of [run] returns before
    the report.  What is needed of [math.Pow] is that [Pow(10, r)] is never
    below zero. *)
Theorem run_identical_images_pass (M : MathLib) (g l f c : float) (nc : bool)
    (a : Image) (t : thresholdVar) :
  (forall r, (Pow M 10 r <? 0)%float = false) ->
  2 <= Dx (Bounds a) -> 2 <= Dy (Bounds a) ->
  (value t <? 0)%float = false ->
  exists diff n,
    Compare M (NewPerceptual M g l f c nc) a a = Val (Some diff, n, None) /\
    reportsDifference t n (Dx (PRect diff)) (Dy (PRect diff)) = false.
Proof.
  intros HPow Hw Hh Ht.
  destruct (Compare_paint M (NewPerceptual M g l f c nc) a a)
    as (aLap & bLap & freq & pass & Ha & Hb & _ & HP & HC);
    [reflexivity | reflexivity | unfold okDims; lia | apply NewPerceptual_ai |].
  rewrite Ha in Hb. injection Hb as <-.
  destruct (paint_image pass (Dx (Bounds a)) (Dy (Bounds a)))
    as (_ & _ & Hn & _ & _); [lia | lia |].
  assert (Hzero : len (filter (fun xy => negb (pass (fst xy) (snd xy)))
                         (pixels (Dx (Bounds a)) (Dy (Bounds a)))) = 0).
  { rewrite (filter_ext_in _ (fun _ => false)).
    - clear. unfold len. induction (pixels _ _); [reflexivity | assumption].
    - intros [x y] Hin. apply In_pixels in Hin as [Hx Hy]. cbn [fst snd].
      now rewrite (pixelPass_self M _ _ _ _ _ x y _ HPow (HP x y Hx Hy)). }
  rewrite Hzero in Hn. rewrite Hn in HC.
  eexists. eexists. split; [exact HC|].
  unfold reportsDifference. cbv zeta. change (float64 0) with 0%float.
  rewrite Ht. now rewrite orb_true_r.
Qed.

Lemma run_identical_images_pass_witness :
  exists diff n,
    Compare exampleMath (NewPerceptual exampleMath 2.2 100 45 1 false)
      (uniformImage 3 2 grey) (uniformImage 3 2 grey) = Val (Some diff, n, None) /\
    reportsDifference {| value := 100; percent := false |} n
      (Dx (PRect diff)) (Dy (PRect diff)) = false.
Proof.
  apply (run_identical_images_pass exampleMath 2.2 100 45 1 false
           (uniformImage 3 2 grey) {| value := 100; percent := false |});
    [intros r; reflexivity | vm_compute; discriminate | vm_compute; discriminate
    | reflexivity].
Defined.
